(** * wayland-idle-helper: a shallow embedding and its specification

    The program under study is
    [packages/desktop/resources/bin/wayland-idle-helper.c]: a small
    Wayland client that binds [wl_seat] and [ext_idle_notifier_v1],
    subscribes to one idle notification and republishes the compositor's
    idle/resume events as lines on standard output.

    The embedding follows the C text function by function.  The two
    file-scope pointers [seat] and [notifier] are fields of a state
    record, every library call and every write the program performs is
    appended to a trace, and the compositor is a script of answers
    (whether the connection succeeds, which registry events arrive during
    the round trip, what every [wl_display_dispatch] delivers and
    returns). *)

From Stdlib Require Import ZArith List String Ascii Bool Lia.
Import ListNotations.

Local Open Scope string_scope.
Local Open Scope list_scope.
Local Open Scope Z_scope.

(** ** The command line: [atol] and the timeout *)

Module Timeout.

(** A [long] on the LP64 platforms the helper is built for. *)
Definition LONG_MAX : Z := 2 ^ 63 - 1.
Definition LONG_MIN : Z := - 2 ^ 63.

(** [(uint32_t) v] *)
Definition to_uint32 (v : Z) : Z := v mod 2 ^ 32.

Definition code (c : ascii) : Z := Z.of_N (N_of_ascii c).

(** [isspace] and [isdigit] of the C locale. *)
Definition isspace (c : ascii) : bool :=
  (code c =? 32) || ((9 <=? code c) && (code c <=? 13)).

Definition isdigit (c : ascii) : bool :=
  (48 <=? code c) && (code c <=? 57).

Fixpoint skip_spaces (s : string) : string :=
  match s with
  | String c s' => if isspace c then skip_spaces s' else s
  | EmptyString => s
  end.

(** The digits at the head of [s], accumulated in base 10; the scan stops
    at the first character that is not a digit. *)
Fixpoint digits_value (acc : Z) (s : string) : Z :=
  match s with
  | String c s' =>
      if isdigit c then digits_value (acc * 10 + (code c - 48)) s' else acc
  | EmptyString => acc
  end.

(** [atol] is [strtol (s, NULL, 10)]: white space, an optional sign, then
    digits; no digits give 0 and a value outside [long] is clamped. *)
Definition atol (s : string) : Z :=
  match skip_spaces s with
  | String "-" s' => Z.max LONG_MIN (- digits_value 0 s')
  | String "+" s' => Z.min LONG_MAX (digits_value 0 s')
  | s' => Z.min LONG_MAX (digits_value 0 s')
  end.

(** Lines 70-74 of [main]: [argc] is the length of [argv], [argv[1]] its
    second entry. *)
Definition timeout_of_args (argv : list string) : Z :=
  let timeout_ms := 10000 in
  if 1 <? Z.of_nat (List.length argv) then
    let val := atol (nth 1 argv "") in
    if 0 <? val then to_uint32 val else timeout_ms
  else timeout_ms.

(** *** What the claims call an argument *)

(** The decimal numeral with the digits [ds], most significant first. *)
Definition digit_char (d : Z) : ascii := ascii_of_nat (Z.to_nat (48 + d)).

Fixpoint numeral (ds : list Z) : string :=
  match ds with
  | [] => EmptyString
  | d :: ds' => String (digit_char d) (numeral ds')
  end.

Definition numeral_value (ds : list Z) : Z :=
  fold_left (fun a d => a * 10 + d) ds 0.

Definition is_digit (d : Z) : Prop := 0 <= d <= 9.

(** An argument is non-numeric when, after white space and one optional
    sign, it does not continue with a digit. *)
Definition starts_with_digit (s : string) : bool :=
  match s with
  | String c _ => isdigit c
  | EmptyString => false
  end.

Definition non_numeric (s : string) : bool :=
  match skip_spaces s with
  | String "-" s' => negb (starts_with_digit s')
  | String "+" s' => negb (starts_with_digit s')
  | s' => negb (starts_with_digit s')
  end.

End Timeout.

Import Timeout.

(** ** The process, the compositor and the trace *)

(** A protocol object is known by its identity; a C pointer to one is
    [None] when it is [NULL]. *)
Definition proxy : Type := nat.
Definition pointer : Type := option proxy.

(** The two [struct wl_interface] the program binds against. *)
Inductive wl_interface : Type :=
| wl_seat_interface
| ext_idle_notifier_v1_interface.

(** What the [wl_registry] listener can receive. *)
Inductive registry_event : Type :=
| global (name : Z) (interface : string) (version : Z)
| global_remove (name : Z).

(** What the default queue can hold once the notification exists. *)
Inductive event : Type :=
| registry_ev (e : registry_event)
| idled
| resumed.

(** One call of [wl_display_dispatch]: the events it hands to the
    listeners, then the [int] it returns. *)
Record dispatch : Type := Dispatch {
  delivered : list event;
  returned : Z
}.

(** The compositor's side of a run. *)
Record compositor : Type := Compositor {
  connects : bool;
  discovery : list registry_event;
  dispatches : list dispatch
}.

(** Everything the program does that is visible from outside, in the
    order it does it. *)
Inductive action : Type :=
| Printf (s : string)
| Fflush_stdout
| Fprintf_stderr (s : string)
| Wl_display_connect (result : pointer)
| Wl_display_get_registry (display result : proxy)
| Wl_registry_add_listener (registry : proxy)
| Roundtrip_begin (display : proxy)
| Roundtrip_end (display : proxy)
| Wl_registry_bind (registry : proxy) (name : Z) (interface : wl_interface)
                   (version : Z) (result : proxy)
| Get_idle_notification (notifier : proxy) (timeout : Z) (seat : proxy)
                        (result : proxy)
| Notification_add_listener (notif : proxy)
| Dispatch_begin (display : proxy)
| Dispatch_end (display : proxy) (result : Z)
| Ext_idle_notification_v1_destroy (notif : proxy)
| Ext_idle_notifier_v1_destroy (notifier : pointer)
| Wl_display_disconnect (display : proxy).

Definition trace : Type := list action.

(** The file-scope variables [seat] and [notifier], and the next free
    object identity of the connection. *)
Record process : Type := Process {
  seat : pointer;
  notifier : pointer;
  next_proxy : proxy
}.

Definition initial : process :=
  {| seat := None; notifier := None; next_proxy := 1%nat |}.

(** How [main] stands when the script of the compositor is used up:
    returned with a status, or still inside [wl_display_dispatch]. *)
Inductive status : Type :=
| Exited (code : Z)
| Blocked.

(** *** A state and trace monad *)

Definition prog (A : Type) : Type := process -> A * process * trace.

Definition ret {A} (a : A) : prog A := fun p => (a, p, []).

Definition bind {A B} (m : prog A) (k : A -> prog B) : prog B :=
  fun p =>
    let '(a, p1, t1) := m p in
    let '(b, p2, t2) := k a p1 in
    (b, p2, t1 ++ t2).

Notation "x <- m ;; k" := (bind m (fun x => k))
  (at level 61, m at next level, right associativity).
Notation "m ;; k" := (bind m (fun _ => k))
  (at level 61, right associativity).

Definition call (a : action) : prog unit := fun p => (tt, p, [a]).

Definition fresh : prog proxy :=
  fun p => (next_proxy p,
            {| seat := seat p; notifier := notifier p;
               next_proxy := S (next_proxy p) |}, []).

Definition get_seat : prog pointer := fun p => (seat p, p, []).
Definition get_notifier : prog pointer := fun p => (notifier p, p, []).

Definition set_seat (s : pointer) : prog unit :=
  fun p => (tt, {| seat := s; notifier := notifier p;
                   next_proxy := next_proxy p |}, []).

Definition set_notifier (n : pointer) : prog unit :=
  fun p => (tt, {| seat := seat p; notifier := n;
                   next_proxy := next_proxy p |}, []).

Fixpoint for_each {A} (f : A -> prog unit) (l : list A) : prog unit :=
  match l with
  | [] => ret tt
  | x :: l' => f x ;; for_each f l'
  end.

(** *** The library calls that create an object *)

(** Each of them answers with a new object.  They return [NULL] only
    when memory runs out, which the program does not check for and which
    is left out here; [wl_display_connect] is the one call whose failure
    the program handles, and the compositor's script decides it. *)

Definition wl_display_connect (c : compositor) : prog pointer :=
  if connects c then
    d <- fresh ;; call (Wl_display_connect (Some d)) ;; ret (Some d)
  else
    call (Wl_display_connect None) ;; ret None.

Definition wl_display_get_registry (display : proxy) : prog proxy :=
  r <- fresh ;; call (Wl_display_get_registry display r) ;; ret r.

Definition wl_registry_bind (registry : proxy) (name : Z)
    (interface : wl_interface) (version : Z) : prog proxy :=
  r <- fresh ;; call (Wl_registry_bind registry name interface version r) ;;
  ret r.

Definition ext_idle_notifier_v1_get_idle_notification
    (n : proxy) (timeout : Z) (s : proxy) : prog proxy :=
  r <- fresh ;; call (Get_idle_notification n timeout s r) ;; ret r.

(** *** The program *)

Definition nl : string := String (ascii_of_nat 10) EmptyString.

(** A C literal that ends in a newline. *)
Definition line (text : string) : string := (text ++ nl)%string.

(** Lines 25-30. *)
Definition on_idled (notif : proxy) : prog unit :=
  call (Printf (line "IDLE")) ;;
  call Fflush_stdout.

(** Lines 32-37. *)
Definition on_resumed (notif : proxy) : prog unit :=
  call (Printf (line "RESUMED")) ;;
  call Fflush_stdout.

Definition is_nil {A} (l : list A) : bool :=
  match l with [] => true | _ :: _ => false end.

Definition is_null (p : pointer) : bool :=
  match p with None => true | Some _ => false end.

(** Lines 44-55. *)
Definition registry_global (registry : proxy) (name : Z)
    (interface : string) (version : Z) : prog unit :=
  s <- get_seat ;;
  if (interface =? "wl_seat")%string && is_null s then
    r <- wl_registry_bind registry name wl_seat_interface 1 ;;
    set_seat (Some r)
  else if (interface =? "ext_idle_notifier_v1")%string then
    r <- wl_registry_bind registry name ext_idle_notifier_v1_interface 1 ;;
    set_notifier (Some r)
  else ret tt.

(** Lines 57-61. *)
Definition registry_global_remove (registry : proxy) (name : Z) : prog unit :=
  ret tt.

(** [registry_listener], lines 63-66. *)
Definition registry_listener (registry : proxy) (e : registry_event)
    : prog unit :=
  match e with
  | global name interface version =>
      registry_global registry name interface version
  | global_remove name => registry_global_remove registry name
  end.

(** [notif_listener], lines 39-42, next to the registry listener that
    stays installed for the whole run. *)
Definition listeners (registry notif : proxy) (e : event) : prog unit :=
  match e with
  | registry_ev e => registry_listener registry e
  | idled => on_idled notif
  | resumed => on_resumed notif
  end.

(** Line 84: the round trip hands the registry events to the listener. *)
Definition wl_display_roundtrip (display registry : proxy)
    (evs : list registry_event) : prog unit :=
  call (Roundtrip_begin display) ;;
  for_each (registry_listener registry) evs ;;
  call (Roundtrip_end display).

(** One [wl_display_dispatch]. *)
Definition wl_display_dispatch (display registry notif : proxy)
    (d : dispatch) : prog Z :=
  call (Dispatch_begin display) ;;
  for_each (listeners registry notif) (delivered d) ;;
  call (Dispatch_end display (returned d)) ;;
  ret (returned d).

(** Lines 105-107.  The result says whether the loop was left; with the
    script used up the program sits in the next [wl_display_dispatch]. *)
Fixpoint dispatch_loop (display registry notif : proxy)
    (ds : list dispatch) : prog bool :=
  match ds with
  | [] => call (Dispatch_begin display) ;; ret false
  | d :: ds' =>
      r <- wl_display_dispatch display registry notif d ;;
      if r =? -1 then ret true
      else dispatch_loop display registry notif ds'
  end.

(** Lines 68-113. *)
Definition main (argv : list string) (c : compositor) : prog status :=
  let timeout_ms := timeout_of_args argv in
  display <- wl_display_connect c ;;
  match display with
  | None =>
      call (Fprintf_stderr (line "ERROR: Cannot connect to Wayland display")) ;;
      ret (Exited 1)
  | Some display =>
      registry <- wl_display_get_registry display ;;
      call (Wl_registry_add_listener registry) ;;
      wl_display_roundtrip display registry (discovery c) ;;
      s <- get_seat ;;
      match s with
      | None =>
          call (Fprintf_stderr (line "ERROR: No wl_seat found")) ;;
          call (Wl_display_disconnect display) ;;
          ret (Exited 1)
      | Some s =>
          n <- get_notifier ;;
          match n with
          | None =>
              call (Fprintf_stderr
                      (line "ERROR: ext_idle_notifier_v1 not supported")) ;;
              call (Wl_display_disconnect display) ;;
              ret (Exited 1)
          | Some n =>
              notif <- ext_idle_notifier_v1_get_idle_notification
                         n timeout_ms s ;;
              call (Notification_add_listener notif) ;;
              call (Printf (line "READY")) ;;
              call Fflush_stdout ;;
              left <- dispatch_loop display registry notif (dispatches c) ;;
              if left then
                call (Ext_idle_notification_v1_destroy notif) ;;
                n' <- get_notifier ;;
                call (Ext_idle_notifier_v1_destroy n') ;;
                call (Wl_display_disconnect display) ;;
                ret (Exited 0)
              else ret Blocked
          end
      end
  end.

(** What a program returns, leaves as state and adds to the trace when
    it is started in [p]. *)
Definition value {A} (m : prog A) (p : process) : A := fst (fst (m p)).
Definition state_after {A} (m : prog A) (p : process) : process :=
  snd (fst (m p)).
Definition trace_by {A} (m : prog A) (p : process) : trace := snd (m p).

(** A run from the initial state. *)
Definition exit_status (argv : list string) (c : compositor) : status :=
  value (main argv c) initial.

Definition trace_of (argv : list string) (c : compositor) : trace :=
  trace_by (main argv c) initial.

(** ** The stages of a run on a connection that was made *)

(** The first two objects: the display and its registry. *)
Definition the_display : proxy := 1%nat.
Definition the_registry : proxy := 2%nat.

(** The state in which the round trip starts. *)
Definition connected : process :=
  {| seat := None; notifier := None; next_proxy := 3%nat |}.

(** The state and the trace of the listener over the round trip. *)
Definition discovered (c : compositor) : process :=
  state_after (for_each (registry_listener the_registry) (discovery c)) connected.

Definition discovery_trace (c : compositor) : trace :=
  trace_by (for_each (registry_listener the_registry) (discovery c)) connected.

(** The notification object, and the state in which the loop starts. *)
Definition the_notification (c : compositor) : proxy :=
  next_proxy (discovered c).

Definition subscribed (c : compositor) : process :=
  {| seat := seat (discovered c); notifier := notifier (discovered c);
     next_proxy := S (the_notification c) |}.

Definition loop_trace (c : compositor) : trace :=
  trace_by (dispatch_loop the_display the_registry (the_notification c)
              (dispatches c)) (subscribed c).

Definition finished (c : compositor) : process :=
  state_after (dispatch_loop the_display the_registry (the_notification c)
                 (dispatches c)) (subscribed c).

(** Lines 76-84, up to the entry into the round trip. *)
Definition opening : trace :=
  [Wl_display_connect (Some the_display);
   Wl_display_get_registry the_display the_registry;
   Wl_registry_add_listener the_registry;
   Roundtrip_begin the_display].

(** Lines 97-103. *)
Definition subscription (argv : list string) (n s notif : proxy) : trace :=
  [Get_idle_notification n (timeout_of_args argv) s notif;
   Notification_add_listener notif;
   Printf (line "READY");
   Fflush_stdout].

(** Lines 109-111. *)
Definition teardown (notif : proxy) (n : pointer) : trace :=
  [Ext_idle_notification_v1_destroy notif;
   Ext_idle_notifier_v1_destroy n;
   Wl_display_disconnect the_display].

(** ** Reading a trace *)

Definition stdout (t : trace) : list string :=
  flat_map (fun a => match a with Printf s => [s] | _ => [] end) t.

Definition stderr (t : trace) : list string :=
  flat_map (fun a => match a with Fprintf_stderr s => [s] | _ => [] end) t.

(** The global name and the new object of every bind against
    [wl_seat_interface]. *)
Definition seat_binds (t : trace) : list (Z * proxy) :=
  flat_map (fun a => match a with
                     | Wl_registry_bind _ name wl_seat_interface _ r => [(name, r)]
                     | _ => []
                     end) t.

Definition notifier_binds (t : trace) : list (Z * proxy) :=
  flat_map (fun a => match a with
                     | Wl_registry_bind _ name ext_idle_notifier_v1_interface _ r =>
                         [(name, r)]
                     | _ => []
                     end) t.

(** A subscription: the notifier it was made from, its timeout, its seat
    and the notification object. *)
Definition subscriptions (t : trace) : list (proxy * Z * proxy * proxy) :=
  flat_map (fun a => match a with
                     | Get_idle_notification n ms s r => [(n, ms, s, r)]
                     | _ => []
                     end) t.

Definition destroyed (t : trace) : list proxy :=
  flat_map (fun a => match a with
                     | Ext_idle_notification_v1_destroy r => [r]
                     | Ext_idle_notifier_v1_destroy (Some r) => [r]
                     | _ => []
                     end) t.

Definition disconnects (t : trace) : list proxy :=
  flat_map (fun a => match a with Wl_display_disconnect d => [d] | _ => [] end) t.

Definition dispatch_calls (t : trace) : list proxy :=
  flat_map (fun a => match a with Dispatch_begin d => [d] | _ => [] end) t.

Definition roundtrip_returns (t : trace) : list proxy :=
  flat_map (fun a => match a with Roundtrip_end d => [d] | _ => [] end) t.

(** The pointer a file-scope variable holds after the binds [bs], when
    it held [before]: every bind is assigned to it. *)
Definition held (before : pointer) (bs : list (Z * proxy)) : pointer :=
  fold_left (fun _ b => Some (snd b)) bs before.

(** Every object a listener binds is new: its identity lies between the
    allocation mark before and after; a seat object and a notifier
    object are never the same object. *)
Definition fresh_binds (p p' : process) (t : trace) : Prop :=
  (next_proxy p <= next_proxy p')%nat
  /\ (forall b, In b (seat_binds t ++ notifier_binds t) ->
                (next_proxy p <= snd b < next_proxy p')%nat)
  /\ (forall s n, In s (seat_binds t) -> In n (notifier_binds t) ->
                  snd s <> snd n).

(** Both capabilities were bound and the subscription was made. *)
Definition set_up (t : trace) : bool :=
  negb (is_nil (seat_binds t))
  && negb (is_nil (notifier_binds t))
  && negb (is_nil (subscriptions t)).

(** Every [printf] is followed at once by [fflush (stdout)]. *)
Fixpoint flushed (t : trace) : bool :=
  match t with
  | [] => true
  | Printf _ :: t' =>
      match t' with
      | Fflush_stdout :: _ => flushed t'
      | _ => false
      end
  | _ :: t' => flushed t'
  end.

(** ** Reading the compositor's script *)

Definition seat_adverts (evs : list registry_event) : list Z :=
  flat_map (fun e => match e with
                     | global name interface _ =>
                         if (interface =? "wl_seat")%string then [name] else []
                     | global_remove _ => []
                     end) evs.

Definition notifier_adverts (evs : list registry_event) : list Z :=
  flat_map (fun e => match e with
                     | global name interface _ =>
                         if (interface =? "ext_idle_notifier_v1")%string
                         then [name] else []
                     | global_remove _ => []
                     end) evs.

Definition registry_events (evs : list event) : list registry_event :=
  flat_map (fun e => match e with registry_ev e => [e] | _ => [] end) evs.

(** The calls of [wl_display_dispatch] that the loop gets to make: all of
    them up to the first that returns -1, that one included. *)
Fixpoint consumed (ds : list dispatch) : list dispatch :=
  match ds with
  | [] => []
  | d :: ds' => if returned d =? -1 then [d] else d :: consumed ds'
  end.

Definition delivered_events (ds : list dispatch) : list event :=
  flat_map delivered (consumed ds).

Definition connection_lost (ds : list dispatch) : bool :=
  existsb (fun d => returned d =? -1) ds.

(** The output line of an idle or resume event; other events have none. *)
Definition token (e : event) : list string :=
  match e with
  | idled => [line "IDLE"]
  | resumed => [line "RESUMED"]
  | registry_ev _ => []
  end.

Definition tokens (evs : list event) : list string := flat_map token evs.

(** Both capabilities are advertised while the round trip runs, on a
    connection that was made. *)
Definition setup_succeeds (c : compositor) : bool :=
  connects c
  && negb (is_nil (seat_adverts (discovery c)))
  && negb (is_nil (notifier_adverts (discovery c))).

(** The five ways a run can go, each with its status and its trace. *)
Inductive run_shape (argv : list string) (c : compositor)
    : status -> trace -> Prop :=
| no_display :
    connects c = false ->
    run_shape argv c (Exited 1)
      [Wl_display_connect None;
       Fprintf_stderr (line "ERROR: Cannot connect to Wayland display")]
| no_seat :
    connects c = true ->
    seat (discovered c) = None ->
    run_shape argv c (Exited 1)
      (opening ++ discovery_trace c
       ++ [Roundtrip_end the_display;
           Fprintf_stderr (line "ERROR: No wl_seat found");
           Wl_display_disconnect the_display])
| no_notifier s :
    connects c = true ->
    seat (discovered c) = Some s ->
    notifier (discovered c) = None ->
    run_shape argv c (Exited 1)
      (opening ++ discovery_trace c
       ++ [Roundtrip_end the_display;
           Fprintf_stderr (line "ERROR: ext_idle_notifier_v1 not supported");
           Wl_display_disconnect the_display])
| dispatch_failed s n :
    connects c = true ->
    seat (discovered c) = Some s ->
    notifier (discovered c) = Some n ->
    connection_lost (dispatches c) = true ->
    run_shape argv c (Exited 0)
      (opening ++ discovery_trace c
       ++ [Roundtrip_end the_display]
       ++ subscription argv n s (the_notification c)
       ++ loop_trace c
       ++ teardown (the_notification c) (notifier (finished c)))
| dispatching s n :
    connects c = true ->
    seat (discovered c) = Some s ->
    notifier (discovered c) = Some n ->
    connection_lost (dispatches c) = false ->
    run_shape argv c Blocked
      (opening ++ discovery_trace c
       ++ [Roundtrip_end the_display]
       ++ subscription argv n s (the_notification c)
       ++ loop_trace c).

(** ** Some compositors *)

Definition helper : string := "wayland-idle-helper".

(** Seat, then idle notifier, then an idle and a resume event; the
    connection stays up. *)
Definition desktop : compositor :=
  {| connects := true;
     discovery := [global 1 "wl_compositor" 6; global 2 "wl_seat" 9;
                   global 3 "ext_idle_notifier_v1" 2];
     dispatches := [Dispatch [idled] 1; Dispatch [resumed] 1] |}.

(** The same, and then the compositor goes away. *)
Definition desktop_gone : compositor :=
  {| connects := true;
     discovery := discovery desktop;
     dispatches := [Dispatch [idled] 1; Dispatch [resumed] 1; Dispatch [] (-1)] |}.

(** A compositor that advertises nothing the helper needs. *)
Definition bare : compositor :=
  {| connects := true;
     discovery := [global 1 "wl_compositor" 6];
     dispatches := [] |}.

(** A seat but no idle notifier. *)
Definition seat_only : compositor :=
  {| connects := true;
     discovery := [global 1 "wl_compositor" 6; global 2 "wl_seat" 9];
     dispatches := [] |}.

(** Two seats and the idle notifier advertised twice. *)
Definition doubled : compositor :=
  {| connects := true;
     discovery := [global 1 "wl_seat" 9; global 2 "ext_idle_notifier_v1" 2;
                   global 3 "wl_seat" 9; global 4 "ext_idle_notifier_v1" 2];
     dispatches := [Dispatch [] (-1)] |}.

(** [needle] occurs in [s]. *)
Fixpoint mentions (needle s : string) : bool :=
  String.prefix needle s
  || match s with
     | EmptyString => false
     | String _ s' => mentions needle s'
     end.

(** The desktop with other globals, an output that comes and goes, and
    a removal in the middle of the events. *)
Definition noisy : compositor :=
  {| connects := true;
     discovery := [global 1 "wl_compositor" 6; global 2 "wl_seat" 9;
                   global 7 "wl_output" 4; global_remove 7;
                   global 3 "ext_idle_notifier_v1" 2];
     dispatches := [Dispatch [registry_ev (global 8 "wl_output" 4); idled] 2;
                    Dispatch [registry_ev (global_remove 8); resumed] 2;
                    Dispatch [] (-1)] |}.

(** The desktop whose compositor advertises the idle notifier once
    more while the loop runs, and then goes away. *)
Definition renewed : compositor :=
  {| connects := true;
     discovery := discovery desktop;
     dispatches := [Dispatch [idled] 1;
                    Dispatch [registry_ev (global 9 "ext_idle_notifier_v1" 2)] 1;
                    Dispatch [resumed] 1;
                    Dispatch [] (-1)] |}.

(** ** Changing what the compositor sends *)

(** A registry event on which the listener takes neither branch of
    [registry_global]: a removal, or a global of another interface. *)
Definition inert (e : registry_event) : bool :=
  match e with
  | global _ interface _ =>
      negb (interface =? "wl_seat")%string
      && negb (interface =? "ext_idle_notifier_v1")%string
  | global_remove _ => true
  end.

(** The script with the registry events that [keep] rejects taken out,
    from the round trip and from every dispatch. *)
Definition kept (keep : registry_event -> bool) (e : event) : bool :=
  match e with
  | registry_ev r => keep r
  | idled | resumed => true
  end.

Definition prune_dispatch (keep : registry_event -> bool) (d : dispatch)
    : dispatch :=
  {| delivered := filter (kept keep) (delivered d); returned := returned d |}.

Definition prune (keep : registry_event -> bool) (c : compositor)
    : compositor :=
  {| connects := connects c;
     discovery := filter keep (discovery c);
     dispatches := map (prune_dispatch keep) (dispatches c) |}.

(** The script with further calls of [wl_display_dispatch] at its end. *)
Definition and_then (c : compositor) (more : list dispatch) : compositor :=
  {| connects := connects c;
     discovery := discovery c;
     dispatches := dispatches c ++ more |}.

(** White space only. *)
Fixpoint all_spaces (s : string) : bool :=
  match s with
  | EmptyString => true
  | String ch s' => isspace ch && all_spaces s'
  end.

(** A bind as the program writes it: on the registry of the run, for
    version 1. *)
Definition bind_as_written (a : action) : Prop :=
  match a with
  | Wl_registry_bind registry _ _ version _ =>
      registry = the_registry /\ version = 1
  | _ => True
  end.

(** * Properties *)

(** ** The timeout argument *)

Section TimeoutFacts.

Example atol_plain : atol "2500" = 2500.
Proof. reflexivity. Qed.

Example atol_prefix : atol "  +12abc" = 12.
Proof. reflexivity. Qed.

Example atol_negative : atol "-7" = -7.
Proof. reflexivity. Qed.

Example atol_clamped : atol "99999999999999999999" = LONG_MAX.
Proof. reflexivity. Qed.

Example timeout_absent : timeout_of_args [helper] = 10000.
Proof. reflexivity. Qed.

Example timeout_given : timeout_of_args [helper; "300000"] = 300000.
Proof. reflexivity. Qed.

Example timeout_numeric_prefix : timeout_of_args [helper; "12abc"] = 12.
Proof. reflexivity. Qed.

Lemma isdigit_range (c : ascii) :
  isdigit c = true -> 48 <= code c <= 57.
Proof. unfold isdigit. lia. Qed.

Lemma digit_not_space (c : ascii) : isdigit c = true -> isspace c = false.
Proof. intros H%isdigit_range. unfold isspace. lia. Qed.

Lemma digit_char_spec (d : Z) :
  is_digit d -> isdigit (digit_char d) = true /\ code (digit_char d) - 48 = d.
Proof.
  unfold is_digit. intros H.
  assert (E : d = 0 \/ d = 1 \/ d = 2 \/ d = 3 \/ d = 4 \/ d = 5 \/ d = 6
              \/ d = 7 \/ d = 8 \/ d = 9) by lia.
  repeat (destruct E as [E | E]; [subst d; split; reflexivity |]).
  subst d; split; reflexivity.
Qed.

Lemma digits_value_numeral (ds : list Z) :
  Forall is_digit ds ->
  forall acc, digits_value acc (numeral ds) = fold_left (fun a d => a * 10 + d) ds acc.
Proof.
  induction 1 as [| d ds Hd _ IH]; intros acc; [reflexivity |].
  destruct (digit_char_spec d Hd) as [Hc Hv].
  cbn [numeral digits_value fold_left]. rewrite Hc, Hv. apply IH.
Qed.

Lemma digits_value_lower (s : string) :
  forall acc, 0 <= acc -> acc <= digits_value acc s.
Proof.
  induction s as [| c s IH]; intros acc Hacc; cbn [digits_value]; [lia |].
  destruct (isdigit c) eqn:Hc; [| lia].
  apply isdigit_range in Hc.
  specialize (IH (acc * 10 + (code c - 48))). lia.
Qed.

Lemma digits_value_no_digit (s : string) (acc : Z) :
  starts_with_digit s = false -> digits_value acc s = acc.
Proof.
  destruct s as [| c s]; cbn; [reflexivity |]. now intros ->.
Qed.

(** With a digit in front there is neither white space nor a sign to
    take off. *)
Lemma atol_of_digits (s : string) :
  starts_with_digit s = true -> atol s = Z.min LONG_MAX (digits_value 0 s).
Proof.
  destruct s as [| c s]; [discriminate |]. cbn [starts_with_digit]. intros Hc.
  unfold atol. cbn [skip_spaces]. rewrite (digit_not_space c Hc).
  destruct c as [[] [] [] [] [] [] [] []]; try reflexivity; discriminate Hc.
Qed.

Lemma atol_numeral (ds : list Z) :
  ds <> [] -> Forall is_digit ds ->
  atol (numeral ds) = Z.min LONG_MAX (numeral_value ds).
Proof.
  intros Hne Hds. rewrite atol_of_digits.
  - now rewrite digits_value_numeral.
  - destruct ds as [| d ds]; [congruence |].
    inversion Hds; subst. cbn. now apply digit_char_spec.
Qed.

Lemma atol_minus_numeral (ds : list Z) :
  atol (String "-" (numeral ds)) <= 0.
Proof.
  change (atol (String "-" (numeral ds)))
    with (Z.max LONG_MIN (- digits_value 0 (numeral ds))).
  pose proof (digits_value_lower (numeral ds) 0 ltac:(lia)).
  unfold LONG_MIN. lia.
Qed.

Lemma atol_non_numeric (s : string) : non_numeric s = true -> atol s = 0.
Proof.
  unfold non_numeric, atol.
  destruct (skip_spaces s) as [| c s']; [reflexivity |].
  destruct c as [[] [] [] [] [] [] [] []]; cbn [starts_with_digit];
    intros H%negb_true_iff;
    rewrite ?(digits_value_no_digit _ _ H); try reflexivity;
    cbn [starts_with_digit] in H; cbn [digits_value]; rewrite ?H; reflexivity.
Qed.

(** Lines 71-74, read off for an argument that is there. *)
Lemma timeout_of_argument (prog arg : string) (rest : list string) :
  timeout_of_args (prog :: arg :: rest)
  = if 0 <? atol arg then to_uint32 (atol arg) else 10000.
Proof.
  unfold timeout_of_args. cbn [List.length nth].
  destruct (Z.ltb_spec 1 (Z.of_nat (S (S (List.length rest))))); [reflexivity | lia].
Qed.

Lemma timeout_default_of_nonpositive (prog arg : string) (rest : list string) :
  atol arg <= 0 -> timeout_of_args (prog :: arg :: rest) = 10000.
Proof.
  intros H. rewrite timeout_of_argument.
  destruct (0 <? atol arg) eqn:E; [lia | reflexivity].
Qed.

End TimeoutFacts.

(** C4, as the spec words it, fails: ["4294967296"] is a valid positive
    integer, and the timeout the program takes from it is not the parsed
    value 4294967296 (it is 0). *)
Lemma timeout_valid_positive_counterexample :
  let ds := [4; 2; 9; 4; 9; 6; 7; 2; 9; 6] in
  Forall is_digit ds
  /\ numeral ds = "4294967296"
  /\ 0 < numeral_value ds
  /\ atol (numeral ds) = numeral_value ds
  /\ timeout_of_args ["wayland-idle-helper"; numeral ds] <> numeral_value ds.
Proof.
  cbv zeta. split.
  - repeat constructor; unfold is_digit; lia.
  - repeat split; try reflexivity. vm_compute. discriminate.
Qed.

(** C4, amended: an argument that is a decimal numeral with a value from
    1 to 2^32 - 1 sets the timeout to that value; a numeral of value
    zero, a minus sign followed by a numeral, an argument that does not
    start with a number, and no argument at all leave it at 10000. *)
Theorem timeout_of_args_cases :
  (forall prog ds rest,
      ds <> [] -> Forall is_digit ds -> 0 < numeral_value ds <= 2 ^ 32 - 1 ->
      timeout_of_args (prog :: numeral ds :: rest) = numeral_value ds)
  /\ (forall prog ds rest,
         ds <> [] -> Forall is_digit ds -> numeral_value ds = 0 ->
         timeout_of_args (prog :: numeral ds :: rest) = 10000)
  /\ (forall prog ds rest,
         timeout_of_args (prog :: String "-" (numeral ds) :: rest) = 10000)
  /\ (forall prog arg rest,
         non_numeric arg = true ->
         timeout_of_args (prog :: arg :: rest) = 10000)
  /\ (forall argv,
         (List.length argv <= 1)%nat -> timeout_of_args argv = 10000).
Proof.
  repeat split.
  - intros prog ds rest Hne Hds Hv.
    rewrite timeout_of_argument, atol_numeral by assumption.
    unfold LONG_MAX, to_uint32.
    rewrite Z.min_r by lia.
    destruct (Z.ltb_spec 0 (numeral_value ds)); [| lia].
    apply Z.mod_small. lia.
  - intros prog ds rest Hne Hds Hv.
    apply timeout_default_of_nonpositive.
    rewrite atol_numeral, Hv by assumption. unfold LONG_MAX. lia.
  - intros prog ds rest.
    apply timeout_default_of_nonpositive, atol_minus_numeral.
  - intros prog arg rest H.
    apply timeout_default_of_nonpositive. rewrite (atol_non_numeric _ H). lia.
  - intros argv H. unfold timeout_of_args.
    destruct (Z.ltb_spec 1 (Z.of_nat (List.length argv))); [lia | reflexivity].
Qed.

Lemma timeout_of_args_cases_witness :
  timeout_of_args ["wayland-idle-helper"; "2500"] = 2500
  /\ timeout_of_args ["wayland-idle-helper"; "000"] = 10000
  /\ timeout_of_args ["wayland-idle-helper"; "-15"] = 10000
  /\ timeout_of_args ["wayland-idle-helper"; "soon"] = 10000
  /\ timeout_of_args ["wayland-idle-helper"] = 10000.
Proof.
  destruct timeout_of_args_cases as (Hpos & Hzero & Hneg & Hnon & Habs).
  split; [| split; [| split; [| split]]].
  - apply (Hpos "wayland-idle-helper" [2; 5; 0; 0] []).
    + discriminate.
    + repeat constructor; unfold is_digit; lia.
    + unfold numeral_value. simpl. lia.
  - apply (Hzero "wayland-idle-helper" [0; 0; 0] []).
    + discriminate.
    + repeat constructor; unfold is_digit; lia.
    + reflexivity.
  - apply (Hneg "wayland-idle-helper" [1; 5] []).
  - apply (Hnon "wayland-idle-helper" "soon" []). reflexivity.
  - apply (Habs ["wayland-idle-helper"]). simpl. lia.
Defined.

(** C10: when [atol] gives a value above 2^32 - 1, the timeout is that
    value modulo 2^32; the argument ["4294967296"] gives the timeout 0,
    not the default. *)
Theorem timeout_wraps_modulo_2_32 :
  (forall prog arg rest,
      2 ^ 32 - 1 < atol arg ->
      timeout_of_args (prog :: arg :: rest) = atol arg mod 2 ^ 32)
  /\ atol "4294967296" = 4294967296
  /\ timeout_of_args ["wayland-idle-helper"; "4294967296"] = 0.
Proof.
  split; [| split; reflexivity].
  intros prog arg rest H. rewrite timeout_of_argument.
  destruct (Z.ltb_spec 0 (atol arg)); [reflexivity | lia].
Qed.

Lemma timeout_wraps_modulo_2_32_witness :
  2 ^ 32 - 1 < atol "4294967297"
  /\ timeout_of_args ["wayland-idle-helper"; "4294967297"] = 1.
Proof.
  split; [reflexivity |].
  rewrite (proj1 timeout_wraps_modulo_2_32 "wayland-idle-helper" "4294967297" []).
  - reflexivity.
  - reflexivity.
Defined.

(** ** The monad *)

Section MonadFacts.

Context {A B : Type}.

Lemma run_eta (m : prog A) (p : process) :
  m p = (value m p, state_after m p, trace_by m p).
Proof. unfold value, state_after, trace_by. now destruct (m p) as [[a q] t]. Qed.

Lemma value_bind (m : prog A) (k : A -> prog B) (p : process) :
  value (bind m k) p = value (k (value m p)) (state_after m p).
Proof.
  unfold value, state_after, bind.
  destruct (m p) as [[a q] t]. cbn. now destruct (k a q) as [[b q'] t'].
Qed.

Lemma state_after_bind (m : prog A) (k : A -> prog B) (p : process) :
  state_after (bind m k) p = state_after (k (value m p)) (state_after m p).
Proof.
  unfold value, state_after, bind.
  destruct (m p) as [[a q] t]. cbn. now destruct (k a q) as [[b q'] t'].
Qed.

Lemma trace_by_bind (m : prog A) (k : A -> prog B) (p : process) :
  trace_by (bind m k) p
  = trace_by m p ++ trace_by (k (value m p)) (state_after m p).
Proof.
  unfold value, state_after, trace_by, bind.
  destruct (m p) as [[a q] t]. cbn. now destruct (k a q) as [[b q'] t'].
Qed.

End MonadFacts.

Lemma state_after_for_each_cons {A} (f : A -> prog unit) x l p :
  state_after (for_each f (x :: l)) p
  = state_after (for_each f l) (state_after (f x) p).
Proof. cbn [for_each]. now rewrite state_after_bind. Qed.

Lemma trace_by_for_each_cons {A} (f : A -> prog unit) x l p :
  trace_by (for_each f (x :: l)) p
  = trace_by (f x) p ++ trace_by (for_each f l) (state_after (f x) p).
Proof. cbn [for_each]. now rewrite trace_by_bind. Qed.

(** ** One registry event *)

(** The three ways through [registry_global], lines 49-54. *)
Lemma registry_global_run registry name interface version p :
  registry_global registry name interface version p
  = if (interface =? "wl_seat")%string && is_null (seat p) then
      (tt,
       {| seat := Some (next_proxy p); notifier := notifier p;
          next_proxy := S (next_proxy p) |},
       [Wl_registry_bind registry name wl_seat_interface 1 (next_proxy p)])
    else if (interface =? "ext_idle_notifier_v1")%string then
      (tt,
       {| seat := seat p; notifier := Some (next_proxy p);
          next_proxy := S (next_proxy p) |},
       [Wl_registry_bind registry name ext_idle_notifier_v1_interface 1
          (next_proxy p)])
    else (tt, p, []).
Proof.
  unfold registry_global, bind, get_seat.
  destruct ((interface =? "wl_seat")%string && is_null (seat p)); [reflexivity |].
  destruct (interface =? "ext_idle_notifier_v1")%string; reflexivity.
Qed.

Lemma for_each_app_state {A} (f : A -> prog unit) l1 l2 : forall p,
  state_after (for_each f (l1 ++ l2)) p
  = state_after (for_each f l2) (state_after (for_each f l1) p).
Proof.
  induction l1 as [| x l1 IH]; intros p; [reflexivity |].
  rewrite <- app_comm_cons, !state_after_for_each_cons. apply IH.
Qed.

Lemma for_each_app_trace {A} (f : A -> prog unit) l1 l2 : forall p,
  trace_by (for_each f (l1 ++ l2)) p
  = trace_by (for_each f l1) p
    ++ trace_by (for_each f l2) (state_after (for_each f l1) p).
Proof.
  induction l1 as [| x l1 IH]; intros p; [reflexivity |].
  rewrite <- app_comm_cons, !trace_by_for_each_cons, state_after_for_each_cons.
  now rewrite IH, app_assoc.
Qed.

(** A reading of the trace that does not depend on the state can be
    taken event by event. *)
Lemma for_each_flat_map {A B} (f : A -> prog unit)
    (g : action -> list B) (h : A -> list B) :
  (forall x p, flat_map g (trace_by (f x) p) = h x) ->
  forall l p, flat_map g (trace_by (for_each f l) p) = flat_map h l.
Proof.
  intros Hstep. induction l as [| x l IH]; intros p; [reflexivity |].
  rewrite trace_by_for_each_cons, flat_map_app, Hstep, IH. reflexivity.
Qed.

Lemma map_flat_map {A B C} (f : B -> C) (g : A -> list B) (l : list A) :
  map f (flat_map g l) = flat_map (fun x => map f (g x)) l.
Proof.
  induction l as [| x l IH]; [reflexivity |].
  cbn [flat_map]. now rewrite map_app, IH.
Qed.

Lemma held_app before bs1 bs2 :
  held before (bs1 ++ bs2) = held (held before bs1) bs2.
Proof. apply fold_left_app. Qed.

Lemma flushed_app (t1 t2 : trace) :
  flushed t1 = true -> flushed t2 = true -> flushed (t1 ++ t2) = true.
Proof.
  intros H1 H2. induction t1 as [| a t1 IH]; [exact H2 |].
  destruct a; cbn [flushed app] in *; try (apply IH; exact H1).
  destruct t1 as [| b t1]; [discriminate |].
  destruct b; try discriminate. apply IH. exact H1.
Qed.

(** The readings of a trace distribute over concatenation. *)
Lemma stdout_app t1 t2 : stdout (t1 ++ t2) = stdout t1 ++ stdout t2.
Proof. apply flat_map_app. Qed.

Lemma stderr_app t1 t2 : stderr (t1 ++ t2) = stderr t1 ++ stderr t2.
Proof. apply flat_map_app. Qed.

Lemma seat_binds_app t1 t2 :
  seat_binds (t1 ++ t2) = seat_binds t1 ++ seat_binds t2.
Proof. apply flat_map_app. Qed.

Lemma notifier_binds_app t1 t2 :
  notifier_binds (t1 ++ t2) = notifier_binds t1 ++ notifier_binds t2.
Proof. apply flat_map_app. Qed.

Lemma subscriptions_app t1 t2 :
  subscriptions (t1 ++ t2) = subscriptions t1 ++ subscriptions t2.
Proof. apply flat_map_app. Qed.

Lemma destroyed_app t1 t2 : destroyed (t1 ++ t2) = destroyed t1 ++ destroyed t2.
Proof. apply flat_map_app. Qed.

Lemma disconnects_app t1 t2 :
  disconnects (t1 ++ t2) = disconnects t1 ++ disconnects t2.
Proof. apply flat_map_app. Qed.

Lemma dispatch_calls_app t1 t2 :
  dispatch_calls (t1 ++ t2) = dispatch_calls t1 ++ dispatch_calls t2.
Proof. apply flat_map_app. Qed.

Lemma roundtrip_returns_app t1 t2 :
  roundtrip_returns (t1 ++ t2) = roundtrip_returns t1 ++ roundtrip_returns t2.
Proof. apply flat_map_app. Qed.

Lemma seat_adverts_app l1 l2 :
  seat_adverts (l1 ++ l2) = seat_adverts l1 ++ seat_adverts l2.
Proof. apply flat_map_app. Qed.

Lemma notifier_adverts_app l1 l2 :
  notifier_adverts (l1 ++ l2) = notifier_adverts l1 ++ notifier_adverts l2.
Proof. apply flat_map_app. Qed.

Lemma tokens_app l1 l2 : tokens (l1 ++ l2) = tokens l1 ++ tokens l2.
Proof. apply flat_map_app. Qed.

Create Rewrite HintDb readings.

#[local] Hint Rewrite stdout_app stderr_app seat_binds_app notifier_binds_app
  subscriptions_app destroyed_app disconnects_app dispatch_calls_app
  roundtrip_returns_app : readings.

(** ** The listeners *)

Section Listeners.

Variables registry notif : proxy.

Local Abbreviation deliver := (for_each (listeners registry notif)).

(** What a single event makes the listeners do. *)
Lemma listeners_run (e : event) (p : process) :
  listeners registry notif e p
  = match e with
    | registry_ev (global name interface version) =>
        registry_global registry name interface version p
    | registry_ev (global_remove _) => (tt, p, [])
    | idled => (tt, p, [Printf (line "IDLE"); Fflush_stdout])
    | resumed => (tt, p, [Printf (line "RESUMED"); Fflush_stdout])
    end.
Proof. destruct e as [[name interface version | name] | |]; reflexivity. Qed.

Ltac listener_cases e p :=
  unfold trace_by, state_after; rewrite listeners_run;
  destruct e as [[name interface version | name] | |];
  [ rewrite registry_global_run;
    destruct ((interface =? "wl_seat")%string && is_null (seat p)) eqn:Eseat;
    [| destruct (interface =? "ext_idle_notifier_v1")%string eqn:Enotifier ]
  | .. ];
  cbn.

Lemma listeners_stdout e p :
  stdout (trace_by (listeners registry notif e) p) = token e.
Proof. listener_cases e p; reflexivity. Qed.

Lemma listeners_flushed e p :
  flushed (trace_by (listeners registry notif e) p) = true.
Proof. listener_cases e p; reflexivity. Qed.

(** The listeners write nothing to standard error, create no
    subscription, destroy nothing, do not disconnect and start no
    dispatch or round trip. *)
Lemma listeners_quiet e p :
  let t := trace_by (listeners registry notif e) p in
  stderr t = [] /\ subscriptions t = [] /\ destroyed t = []
  /\ disconnects t = [] /\ dispatch_calls t = [] /\ roundtrip_returns t = [].
Proof. listener_cases e p; repeat split; reflexivity. Qed.

Lemma deliver_stdout evs p : stdout (trace_by (deliver evs) p) = tokens evs.
Proof. apply for_each_flat_map, listeners_stdout. Qed.

Lemma deliver_flushed evs : forall p, flushed (trace_by (deliver evs) p) = true.
Proof.
  induction evs as [| e evs IH]; intros p; [reflexivity |].
  rewrite trace_by_for_each_cons.
  apply flushed_app; [apply listeners_flushed | apply IH].
Qed.

Lemma deliver_quiet evs p :
  let t := trace_by (deliver evs) p in
  stderr t = [] /\ subscriptions t = [] /\ destroyed t = []
  /\ disconnects t = [] /\ dispatch_calls t = [] /\ roundtrip_returns t = [].
Proof.
  cbv zeta.
  repeat split;
    refine (eq_trans (for_each_flat_map _ _ (fun _ => []) _ evs p) _);
    try (intros e q; apply (listeners_quiet e q));
    now induction evs.
Qed.

(** *** The seat pointer *)

Lemma registry_events_cons e evs :
  registry_events (e :: evs) = registry_events [e] ++ registry_events evs.
Proof. unfold registry_events. cbn [flat_map]. now rewrite app_nil_r. Qed.

Lemma map_fst_nil {X Y} (l : list (X * Y)) : map fst l = [] -> l = [].
Proof. now destruct l. Qed.

Lemma listeners_seat e p :
  let t := trace_by (listeners registry notif e) p in
  seat (state_after (listeners registry notif e) p) = held (seat p) (seat_binds t)
  /\ map fst (seat_binds t)
     = if is_null (seat p) then seat_adverts (registry_events [e]) else [].
Proof.
  listener_cases e p.
  - apply andb_true_iff in Eseat as [-> ->]. now split.
  - apply andb_false_iff in Eseat as [-> | ->]; [| now split].
    destruct (seat p); now split.
  - apply andb_false_iff in Eseat as [-> | ->]; [| now split].
    destruct (seat p); now split.
  - destruct (seat p); now split.
  - destruct (seat p); now split.
  - destruct (seat p); now split.
Qed.

Lemma deliver_seat evs : forall p,
  let t := trace_by (deliver evs) p in
  seat (state_after (deliver evs) p) = held (seat p) (seat_binds t)
  /\ map fst (seat_binds t)
     = if is_null (seat p)
       then firstn 1 (seat_adverts (registry_events evs)) else [].
Proof.
  induction evs as [| e evs IH]; intros p; cbv zeta.
  - split; [reflexivity | now destruct (is_null (seat p))].
  - rewrite state_after_for_each_cons, trace_by_for_each_cons.
    destruct (listeners_seat e p) as [Hs Hn].
    destruct (IH (state_after (listeners registry notif e) p)) as [IHs IHn].
    rewrite seat_binds_app, held_app, map_app.
    split; [now rewrite IHs, Hs |].
    rewrite IHn, Hs, (registry_events_cons e evs), seat_adverts_app.
    destruct (seat p) as [s |]; cbn [is_null] in Hn |- *.
    + apply map_fst_nil in Hn. rewrite Hn. reflexivity.
    + rewrite <- Hn.
      destruct (seat_binds _) as [| [k r] [| b bs]] in Hn |- *;
        try reflexivity.
      destruct e as [[name interface version | name] | |]; cbn in Hn;
        try discriminate Hn.
      destruct (interface =? "wl_seat")%string; discriminate Hn.
Qed.

(** *** The notifier pointer *)

Lemma listeners_notifier e p :
  let t := trace_by (listeners registry notif e) p in
  notifier (state_after (listeners registry notif e) p)
  = held (notifier p) (notifier_binds t)
  /\ map fst (notifier_binds t) = notifier_adverts (registry_events [e]).
Proof.
  listener_cases e p; try now split.
  - apply andb_true_iff in Eseat as [->%String.eqb_eq _]. now split.
  - rewrite Enotifier. now split.
  - rewrite Enotifier. now split.
Qed.

Lemma deliver_notifier evs : forall p,
  let t := trace_by (deliver evs) p in
  notifier (state_after (deliver evs) p) = held (notifier p) (notifier_binds t)
  /\ map fst (notifier_binds t) = notifier_adverts (registry_events evs).
Proof.
  induction evs as [| e evs IH]; intros p; cbv zeta; [now split |].
  rewrite state_after_for_each_cons, trace_by_for_each_cons.
  destruct (listeners_notifier e p) as [Hs Hn].
  destruct (IH (state_after (listeners registry notif e) p)) as [IHs IHn].
  rewrite notifier_binds_app, held_app, map_app.
  split; [now rewrite IHs, Hs |].
  now rewrite IHn, Hn, (registry_events_cons e evs), notifier_adverts_app.
Qed.

(** *** Object identities *)

Lemma listeners_fresh e p :
  fresh_binds p (state_after (listeners registry notif e) p)
    (trace_by (listeners registry notif e) p).
Proof.
  unfold fresh_binds.
  listener_cases e p; (split; [lia | split; [intros b Hb | intros s n Hs Hn]]);
    cbn in *; intuition (subst; cbn; lia).
Qed.

Lemma deliver_fresh evs : forall p,
  fresh_binds p (state_after (deliver evs) p) (trace_by (deliver evs) p).
Proof.
  induction evs as [| e evs IH]; intros p.
  - split; [cbn; lia | split; [intros b [] | intros s n [] ]].
  - rewrite state_after_for_each_cons, trace_by_for_each_cons.
    destruct (listeners_fresh e p) as (Hle & Hin & Hsn).
    destruct (IH (state_after (listeners registry notif e) p))
      as (IHle & IHin & IHsn).
    set (p1 := state_after (listeners registry notif e) p) in *.
    set (p2 := state_after (deliver evs) p1) in *.
    set (t1 := trace_by (listeners registry notif e) p) in *.
    set (t2 := trace_by (deliver evs) p1) in *.
    assert (H1 : forall b, In b (seat_binds t1) \/ In b (notifier_binds t1) ->
                           (next_proxy p <= snd b < next_proxy p1)%nat)
      by (intros b Hb; apply Hin, in_or_app, Hb).
    assert (H2 : forall b, In b (seat_binds t2) \/ In b (notifier_binds t2) ->
                           (next_proxy p1 <= snd b < next_proxy p2)%nat)
      by (intros b Hb; apply IHin, in_or_app, Hb).
    unfold fresh_binds. rewrite seat_binds_app, notifier_binds_app.
    split; [lia | split].
    + intros b Hb. rewrite !in_app_iff in Hb.
      destruct Hb as [[Hb | Hb] | [Hb | Hb]].
      * specialize (H1 b (or_introl Hb)). lia.
      * specialize (H2 b (or_introl Hb)). lia.
      * specialize (H1 b (or_intror Hb)). lia.
      * specialize (H2 b (or_intror Hb)). lia.
    + intros s n Hs Hn. rewrite in_app_iff in Hs, Hn.
      destruct Hs as [Hs | Hs], Hn as [Hn | Hn].
      * now apply Hsn.
      * specialize (H1 s (or_introl Hs)). specialize (H2 n (or_intror Hn)). lia.
      * specialize (H2 s (or_introl Hs)). specialize (H1 n (or_intror Hn)). lia.
      * now apply IHsn.
Qed.

(** *** The dispatch loop *)

Variable display : proxy.

Local Abbreviation loop := (dispatch_loop display registry notif).

Lemma dispatch_loop_nil p :
  loop [] p = (false, p, [Dispatch_begin display]).
Proof. reflexivity. Qed.

(** One turn of the loop, lines 105-107. *)
Lemma dispatch_loop_cons d ds p :
  let q := state_after (deliver (delivered d)) p in
  let t := Dispatch_begin display
           :: trace_by (deliver (delivered d)) p
           ++ [Dispatch_end display (returned d)] in
  loop (d :: ds) p
  = if returned d =? -1 then (true, q, t)
    else (value (loop ds) q, state_after (loop ds) q, t ++ trace_by (loop ds) q).
Proof.
  cbv zeta. unfold trace_by, state_after, value.
  cbn [dispatch_loop]. unfold wl_display_dispatch, bind, call, ret.
  destruct (for_each (listeners registry notif) (delivered d) p) as [[u q] t].
  cbn. destruct (returned d =? -1); cbn.
  - now rewrite !app_nil_r.
  - destruct (dispatch_loop display registry notif ds q) as [[b q'] t'].
    reflexivity.
Qed.

Lemma delivered_events_cons d ds :
  delivered_events (d :: ds)
  = delivered d ++ (if returned d =? -1 then [] else delivered_events ds).
Proof.
  unfold delivered_events. cbn [consumed].
  destruct (returned d =? -1); cbn [flat_map]; reflexivity.
Qed.

(** The loop is left exactly when some [wl_display_dispatch] of the
    script returns -1. *)
Lemma dispatch_loop_value ds : forall p,
  value (loop ds) p = connection_lost ds.
Proof.
  induction ds as [| d ds IH]; intros p; [reflexivity |].
  unfold value at 1. rewrite dispatch_loop_cons. cbn [connection_lost existsb].
  destruct (returned d =? -1); cbn [fst snd orb]; [reflexivity | apply IH].
Qed.

(** The state after the loop is the state after the listeners have seen
    every delivered event. *)
Lemma dispatch_loop_state ds : forall p,
  state_after (loop ds) p = state_after (deliver (delivered_events ds)) p.
Proof.
  induction ds as [| d ds IH]; intros p; [reflexivity |].
  unfold state_after at 1. rewrite dispatch_loop_cons, delivered_events_cons.
  rewrite for_each_app_state.
  destruct (returned d =? -1); cbn [fst snd]; [reflexivity | apply IH].
Qed.

(** A reading that does not see the entry to and the return from
    [wl_display_dispatch] reads the loop as it reads the listeners. *)
Lemma dispatch_loop_reading {B} (g : action -> list B) :
  (forall d, g (Dispatch_begin d) = []) ->
  (forall d r, g (Dispatch_end d r) = []) ->
  forall ds p,
    flat_map g (trace_by (loop ds) p)
    = flat_map g (trace_by (deliver (delivered_events ds)) p).
Proof.
  intros Hb He. induction ds as [| d ds IH]; intros p.
  - cbn. now rewrite Hb.
  - unfold trace_by at 1. rewrite dispatch_loop_cons, delivered_events_cons.
    rewrite for_each_app_trace, flat_map_app.
    destruct (returned d =? -1); cbn [fst snd];
      rewrite ?flat_map_app; cbn [flat_map]; rewrite ?flat_map_app;
      cbn [flat_map]; rewrite Hb, He, ?IH; cbn [app];
      now rewrite ?app_nil_r.
Qed.

Lemma dispatch_loop_flushed ds : forall p, flushed (trace_by (loop ds) p) = true.
Proof.
  induction ds as [| d ds IH]; intros p; [reflexivity |].
  unfold trace_by at 1. rewrite dispatch_loop_cons.
  assert (H : flushed (Dispatch_begin display
                       :: trace_by (deliver (delivered d)) p
                       ++ [Dispatch_end display (returned d)]) = true).
  { cbn [flushed]. apply flushed_app; [apply deliver_flushed | reflexivity]. }
  destruct (returned d =? -1); cbn [fst snd]; [exact H |].
  apply flushed_app; [exact H | apply IH].
Qed.

(** When the loop is left, the last thing that happened is a
    [wl_display_dispatch] returning -1. *)
Lemma dispatch_loop_left ds : forall p,
  connection_lost ds = true ->
  exists t, trace_by (loop ds) p = t ++ [Dispatch_end display (-1)].
Proof.
  induction ds as [| d ds IH]; intros p Hlost; [discriminate |].
  unfold trace_by at 1. rewrite dispatch_loop_cons.
  cbn [connection_lost existsb] in Hlost.
  destruct (Z.eqb_spec (returned d) (-1)) as [-> | _]; cbn [fst snd].
  - now exists (Dispatch_begin display :: trace_by (deliver (delivered d)) p).
  - destruct (IH (state_after (deliver (delivered d)) p) Hlost) as [t Ht].
    rewrite Ht. eexists. now rewrite app_assoc.
Qed.

End Listeners.

(** The round trip is the listeners at work on registry events only. *)
Lemma for_each_map {A B} (f : B -> prog unit) (g : A -> B) (l : list A) :
  for_each (fun x => f (g x)) l = for_each f (map g l).
Proof. induction l as [| x l IH]; [reflexivity |]. cbn. now rewrite IH. Qed.

Lemma round_trip_delivers registry notif evs :
  for_each (registry_listener registry) evs
  = for_each (listeners registry notif) (map registry_ev evs).
Proof. now rewrite <- for_each_map. Qed.

Lemma registry_events_map evs : registry_events (map registry_ev evs) = evs.
Proof.
  induction evs as [| e evs IH]; [reflexivity |].
  cbn [map]. rewrite registry_events_cons, IH. reflexivity.
Qed.

Lemma tokens_map evs : tokens (map registry_ev evs) = [].
Proof. now induction evs. Qed.

(** ** The shape of a run *)

Arguments line : simpl never.
Arguments timeout_of_args : simpl never.
Arguments discovered : simpl never.
Arguments discovery_trace : simpl never.
Arguments the_notification : simpl never.
Arguments subscribed : simpl never.
Arguments finished : simpl never.
Arguments loop_trace : simpl never.

Lemma main_not_connected argv c :
  connects c = false ->
  main argv c initial
  = (Exited 1, initial,
     [Wl_display_connect None;
      Fprintf_stderr (line "ERROR: Cannot connect to Wayland display")]).
Proof. intros H. unfold main, wl_display_connect. rewrite H. reflexivity. Qed.

Lemma main_connected argv c :
  connects c = true ->
  main argv c initial
  = match seat (discovered c), notifier (discovered c) with
    | None, _ =>
        (Exited 1, discovered c,
         opening ++ discovery_trace c
         ++ [Roundtrip_end the_display;
             Fprintf_stderr (line "ERROR: No wl_seat found");
             Wl_display_disconnect the_display])
    | Some s, None =>
        (Exited 1, discovered c,
         opening ++ discovery_trace c
         ++ [Roundtrip_end the_display;
             Fprintf_stderr (line "ERROR: ext_idle_notifier_v1 not supported");
             Wl_display_disconnect the_display])
    | Some s, Some n =>
        if connection_lost (dispatches c) then
          (Exited 0, finished c,
           opening ++ discovery_trace c
           ++ [Roundtrip_end the_display]
           ++ subscription argv n s (the_notification c)
           ++ loop_trace c
           ++ teardown (the_notification c) (notifier (finished c)))
        else
          (Blocked, finished c,
           opening ++ discovery_trace c
           ++ [Roundtrip_end the_display]
           ++ subscription argv n s (the_notification c)
           ++ loop_trace c)
    end.
Proof.
  intros H. unfold main, wl_display_connect. rewrite H.
  unfold bind, fresh, call, ret, wl_display_get_registry,
    wl_display_roundtrip, get_seat, get_notifier,
    ext_idle_notifier_v1_get_idle_notification, bind, fresh, call, ret.
  cbn.
  match goal with
  | |- context [for_each ?f ?l ?p] => rewrite (run_eta (for_each f l) p)
  end.
  change (state_after (for_each (registry_listener 2%nat) (discovery c))
            {| seat := None; notifier := None; next_proxy := 3%nat |})
    with (discovered c).
  change (trace_by (for_each (registry_listener 2%nat) (discovery c))
            {| seat := None; notifier := None; next_proxy := 3%nat |})
    with (discovery_trace c).
  cbn.
  destruct (seat (discovered c)) as [s |] eqn:Es;
    [destruct (notifier (discovered c)) as [n |] eqn:En |];
    cbn; try (now rewrite <- app_assoc).
  match goal with
  | |- context [dispatch_loop ?d ?r ?k ?ds ?p] =>
      rewrite (run_eta (dispatch_loop d r k ds) p);
      rewrite (dispatch_loop_value r k d ds p)
  end.
  destruct (connection_lost (dispatches c)); cbn;
    rewrite <- app_assoc, ?app_nil_r; reflexivity.
Qed.

Lemma run_has_shape argv c :
  run_shape argv c (exit_status argv c) (trace_of argv c).
Proof.
  unfold exit_status, trace_of, value, trace_by.
  destruct (connects c) eqn:Hc.
  - rewrite (main_connected argv c Hc).
    destruct (seat (discovered c)) as [s |] eqn:Es;
      [destruct (notifier (discovered c)) as [n |] eqn:En;
       [destruct (connection_lost (dispatches c)) eqn:El |] |];
      cbn [fst snd]; econstructor; eassumption.
  - rewrite (main_not_connected argv c Hc). now constructor.
Qed.

(** ** What discovery leaves behind *)

Lemma held_cons before b bs : held before (b :: bs) = held (Some (snd b)) bs.
Proof. reflexivity. Qed.

Lemma held_some r bs : held (Some r) bs <> None.
Proof.
  revert r. induction bs as [| b bs IH]; intros r; [discriminate | apply IH].
Qed.

Lemma held_none_iff bs : held None bs = None <-> bs = [].
Proof.
  destruct bs as [| b bs]; [easy |].
  rewrite held_cons. split; [intros H; now apply held_some in H | discriminate].
Qed.

(** A held pointer is the result of one of the binds. *)
Lemma held_in bs r : held None bs = Some r -> In r (map snd bs).
Proof.
  induction bs as [| b bs IH] using rev_ind; [discriminate |].
  rewrite held_app, map_app, in_app_iff. cbn. intros [= <-]. auto.
Qed.

Lemma discovered_seat c :
  seat (discovered c) = held None (seat_binds (discovery_trace c))
  /\ map fst (seat_binds (discovery_trace c))
     = firstn 1 (seat_adverts (discovery c)).
Proof.
  unfold discovered, discovery_trace.
  rewrite (round_trip_delivers the_registry 0%nat).
  destruct (deliver_seat the_registry 0%nat (map registry_ev (discovery c))
              connected) as [Hs Hn].
  rewrite registry_events_map in Hn. now split.
Qed.

Lemma discovered_notifier c :
  notifier (discovered c) = held None (notifier_binds (discovery_trace c))
  /\ map fst (notifier_binds (discovery_trace c))
     = notifier_adverts (discovery c).
Proof.
  unfold discovered, discovery_trace.
  rewrite (round_trip_delivers the_registry 0%nat).
  destruct (deliver_notifier the_registry 0%nat (map registry_ev (discovery c))
              connected) as [Hs Hn].
  rewrite registry_events_map in Hn. now split.
Qed.

Lemma seat_missing_iff c :
  seat (discovered c) = None <-> seat_adverts (discovery c) = [].
Proof.
  destruct (discovered_seat c) as [-> Hn]. rewrite held_none_iff.
  split; intros H.
  - rewrite H in Hn. now destruct (seat_adverts (discovery c)).
  - rewrite H in Hn. now apply map_fst_nil.
Qed.

Lemma notifier_missing_iff c :
  notifier (discovered c) = None <-> notifier_adverts (discovery c) = [].
Proof.
  destruct (discovered_notifier c) as [-> Hn]. rewrite held_none_iff.
  split; intros H.
  - now rewrite H in Hn.
  - rewrite H in Hn. now apply map_fst_nil.
Qed.

Lemma discovery_quiet c :
  let t := discovery_trace c in
  stdout t = [] /\ stderr t = [] /\ subscriptions t = [] /\ destroyed t = []
  /\ disconnects t = [] /\ dispatch_calls t = [] /\ roundtrip_returns t = [].
Proof.
  cbv zeta. unfold discovery_trace.
  rewrite (round_trip_delivers the_registry 0%nat).
  split.
  - now rewrite deliver_stdout, tokens_map.
  - apply deliver_quiet.
Qed.

Lemma discovery_flushed c : flushed (discovery_trace c) = true.
Proof.
  unfold discovery_trace. rewrite (round_trip_delivers the_registry 0%nat).
  apply deliver_flushed.
Qed.

(** ** What the dispatch loop does *)

Section Loop.

Variable c : compositor.

Local Abbreviation events := (delivered_events (dispatches c)).

Local Abbreviation delivery :=
  (for_each (listeners the_registry (the_notification c)) events).

Lemma finished_state : finished c = state_after delivery (subscribed c).
Proof. apply dispatch_loop_state. Qed.

Lemma loop_stdout : stdout (loop_trace c) = tokens events.
Proof.
  unfold loop_trace, stdout.
  rewrite dispatch_loop_reading by reflexivity. apply deliver_stdout.
Qed.

Lemma loop_quiet :
  stderr (loop_trace c) = [] /\ subscriptions (loop_trace c) = []
  /\ destroyed (loop_trace c) = [] /\ disconnects (loop_trace c) = [].
Proof.
  destruct (deliver_quiet the_registry (the_notification c) events (subscribed c))
    as (H1 & H2 & H3 & H4 & _).
  unfold loop_trace, stderr, subscriptions, destroyed, disconnects.
  rewrite !dispatch_loop_reading by reflexivity. auto.
Qed.

Lemma loop_flushed : flushed (loop_trace c) = true.
Proof. apply dispatch_loop_flushed. Qed.

Lemma loop_seat_binds :
  seat_binds (loop_trace c) = seat_binds (trace_by delivery (subscribed c)).
Proof. unfold loop_trace, seat_binds. now rewrite dispatch_loop_reading. Qed.

Lemma loop_notifier_binds :
  notifier_binds (loop_trace c)
  = notifier_binds (trace_by delivery (subscribed c)).
Proof. unfold loop_trace, notifier_binds. now rewrite dispatch_loop_reading. Qed.

(** With a seat bound, the loop binds no other and keeps the pointer. *)
Lemma loop_seat s :
  seat (discovered c) = Some s ->
  seat_binds (loop_trace c) = [] /\ seat (finished c) = Some s.
Proof.
  intros Hs. rewrite loop_seat_binds, finished_state.
  destruct (deliver_seat the_registry (the_notification c) events (subscribed c))
    as [Hp Hn].
  change (seat (subscribed c)) with (seat (discovered c)) in Hp, Hn.
  rewrite Hs in Hp, Hn. cbn [is_null] in Hn.
  apply map_fst_nil in Hn. rewrite Hn in Hp |- *. now split.
Qed.

(** Every notifier advertised while the loop runs is bound, and the
    pointer follows the last of them. *)
Lemma loop_notifier :
  notifier (finished c)
  = held (notifier (discovered c)) (notifier_binds (loop_trace c))
  /\ map fst (notifier_binds (loop_trace c))
     = notifier_adverts (registry_events events).
Proof.
  rewrite loop_notifier_binds, finished_state.
  apply (deliver_notifier the_registry (the_notification c) events (subscribed c)).
Qed.

Lemma loop_fresh : fresh_binds (subscribed c) (finished c) (loop_trace c).
Proof.
  unfold fresh_binds. rewrite loop_seat_binds, loop_notifier_binds, finished_state.
  apply deliver_fresh.
Qed.

End Loop.

Lemma discovery_fresh c : fresh_binds connected (discovered c) (discovery_trace c).
Proof.
  unfold discovered, discovery_trace.
  rewrite (round_trip_delivers the_registry 0%nat). apply deliver_fresh.
Qed.

Lemma tokens_are_idle_or_resumed evs :
  Forall (fun l => l = line "IDLE" \/ l = line "RESUMED") (tokens evs).
Proof.
  induction evs as [| e evs IH]; [constructor |].
  destruct e; cbn; auto.
Qed.

(** ** Reading the trace of a whole run *)

(** Split a reading over the stages of the run, then use what is known of
    the round trip and of the loop. *)
Ltac read_run c :=
  let Q := fresh "Q" in
  pose proof (discovery_quiet c) as Q; cbv zeta in Q;
  destruct Q as (?Dout & ?Derr & ?Dsub & ?Ddes & ?Ddis & ?Dcalls & ?Drt);
  pose proof (loop_quiet c) as Q;
  destruct Q as (?Lerr & ?Lsub & ?Ldes & ?Ldis);
  pose proof (loop_stdout c) as Lout;
  unfold opening, subscription, teardown;
  autorewrite with readings;
  repeat match goal with
         | H : _ (discovery_trace c) = _ |- _ => rewrite !H
         | H : _ (loop_trace c) = _ |- _ => rewrite !H
         end;
  cbn.

Lemma not_nil_iff {X} (l : list X) : negb (is_nil l) = true <-> l <> [].
Proof. destruct l; cbn; split; congruence. Qed.

Lemma seat_bound_iff c :
  seat_binds (discovery_trace c) <> [] <-> seat (discovered c) <> None.
Proof.
  destruct (discovered_seat c) as [-> _]. now rewrite held_none_iff.
Qed.

Lemma notifier_bound_iff c :
  notifier_binds (discovery_trace c) <> [] <-> notifier (discovered c) <> None.
Proof.
  destruct (discovered_notifier c) as [-> _]. now rewrite held_none_iff.
Qed.

Lemma setup_succeeds_iff c :
  setup_succeeds c = true
  <-> connects c = true /\ seat (discovered c) <> None
      /\ notifier (discovered c) <> None.
Proof.
  unfold setup_succeeds.
  rewrite !andb_true_iff, !not_nil_iff, seat_missing_iff, notifier_missing_iff.
  tauto.
Qed.

Lemma setup_fails_iff c :
  setup_succeeds c = false
  <-> connects c = false \/ seat (discovered c) = None
      \/ notifier (discovered c) = None.
Proof.
  rewrite <- not_true_iff_false, setup_succeeds_iff.
  destruct (connects c), (seat (discovered c)), (notifier (discovered c));
    intuition congruence.
Qed.

(** Standard output of a run: nothing, or [READY] and then one line for
    every idle or resume event the loop was given. *)
Lemma run_stdout argv c :
  stdout (trace_of argv c)
  = if setup_succeeds c
    then line "READY" :: tokens (delivered_events (dispatches c))
    else [].
Proof.
  destruct (run_has_shape argv c) as [Hc | Hc Hs | s Hc Hs Hn | s n Hc Hs Hn Hl | s n Hc Hs Hn Hl].
  - rewrite (proj2 (setup_fails_iff c)) by auto. reflexivity.
  - rewrite (proj2 (setup_fails_iff c)) by auto. now read_run c.
  - rewrite (proj2 (setup_fails_iff c)) by auto. now read_run c.
  - rewrite (proj2 (setup_succeeds_iff c)) by (rewrite Hs, Hn; easy).
    read_run c. now rewrite app_nil_r.
  - rewrite (proj2 (setup_succeeds_iff c)) by (rewrite Hs, Hn; easy).
    now read_run c.
Qed.

(** Both binds and the subscription are in the trace exactly when the
    connection was made and both capabilities were advertised during the
    round trip. *)
Lemma run_set_up argv c : set_up (trace_of argv c) = setup_succeeds c.
Proof.
  unfold set_up.
  destruct (run_has_shape argv c) as [Hc | Hc Hs | s Hc Hs Hn | s n Hc Hs Hn Hl | s n Hc Hs Hn Hl].
  - rewrite (proj2 (setup_fails_iff c)) by auto. reflexivity.
  - rewrite (proj2 (setup_fails_iff c)) by auto. read_run c.
    now rewrite !app_nil_r, andb_false_r.
  - rewrite (proj2 (setup_fails_iff c)) by auto. read_run c.
    now rewrite !app_nil_r, andb_false_r.
  - rewrite (proj2 (setup_succeeds_iff c)) by (rewrite Hs, Hn; easy).
    read_run c.
    destruct (seat_binds (discovery_trace c)) eqn:Eb;
      [apply seat_bound_iff in Eb; [easy | congruence] |].
    destruct (notifier_binds (discovery_trace c)) eqn:En;
      [apply notifier_bound_iff in En; [easy | congruence] |].
    reflexivity.
  - rewrite (proj2 (setup_succeeds_iff c)) by (rewrite Hs, Hn; easy).
    read_run c.
    destruct (seat_binds (discovery_trace c)) eqn:Eb;
      [apply seat_bound_iff in Eb; [easy | congruence] |].
    destruct (notifier_binds (discovery_trace c)) eqn:En;
      [apply notifier_bound_iff in En; [easy | congruence] |].
    reflexivity.
Qed.

(** ** Worked runs *)

Example desktop_stdout :
  stdout (trace_of [helper] desktop)
  = [line "READY"; line "IDLE"; line "RESUMED"].
Proof. reflexivity. Qed.

Example desktop_still_running : exit_status [helper] desktop = Blocked.
Proof. reflexivity. Qed.

Example desktop_gone_trace :
  trace_of [helper; "5000"] desktop_gone
  = [Wl_display_connect (Some 1%nat);
     Wl_display_get_registry 1%nat 2%nat;
     Wl_registry_add_listener 2%nat;
     Roundtrip_begin 1%nat;
     Wl_registry_bind 2%nat 2 wl_seat_interface 1 3%nat;
     Wl_registry_bind 2%nat 3 ext_idle_notifier_v1_interface 1 4%nat;
     Roundtrip_end 1%nat;
     Get_idle_notification 4%nat 5000 3%nat 5%nat;
     Notification_add_listener 5%nat;
     Printf (line "READY"); Fflush_stdout;
     Dispatch_begin 1%nat; Printf (line "IDLE"); Fflush_stdout;
     Dispatch_end 1%nat 1;
     Dispatch_begin 1%nat; Printf (line "RESUMED"); Fflush_stdout;
     Dispatch_end 1%nat 1;
     Dispatch_begin 1%nat; Dispatch_end 1%nat (-1);
     Ext_idle_notification_v1_destroy 5%nat;
     Ext_idle_notifier_v1_destroy (Some 4%nat);
     Wl_display_disconnect 1%nat].
Proof. reflexivity. Qed.

Example no_compositor :
  exit_status [helper] {| connects := false; discovery := []; dispatches := [] |}
  = Exited 1
  /\ stderr (trace_of [helper]
               {| connects := false; discovery := []; dispatches := [] |})
     = [line "ERROR: Cannot connect to Wayland display"].
Proof. split; reflexivity. Qed.

(** While no call has returned -1, every event of the script has been
    delivered. *)
Lemma delivered_events_all ds :
  connection_lost ds = false -> delivered_events ds = flat_map delivered ds.
Proof.
  induction ds as [| d ds IH]; [reflexivity |].
  cbn [connection_lost existsb]. rewrite delivered_events_cons.
  destruct (returned d =? -1); [discriminate |].
  intros H. cbn [orb flat_map] in *. now rewrite IH.
Qed.

(** So has every event of a script whose last call is the first to
    return -1. *)
Lemma delivered_events_until_lost ds d :
  connection_lost ds = false ->
  delivered_events (ds ++ [d]) = flat_map delivered (ds ++ [d]).
Proof.
  induction ds as [| d' ds IH]; intros H.
  - cbn [app]. rewrite delivered_events_cons. cbn [flat_map].
    destruct (returned d =? -1); [reflexivity |].
    unfold delivered_events. reflexivity.
  - cbn [connection_lost existsb] in H. rewrite <- app_comm_cons.
    rewrite delivered_events_cons. cbn [flat_map].
    destruct (returned d' =? -1); [discriminate |].
    cbn [orb] in H. now rewrite IH.
Qed.

(** * The claims about a run *)

(** C1: [READY] is on standard output if and only if the seat and the
    idle notifier were bound and the subscription was made; it is written
    at most once; and when it is written, nothing was printed and no
    [wl_display_dispatch] was entered before it, and all that is printed
    after it is [IDLE] or [RESUMED]. *)
Theorem ready_iff_set_up (argv : list string) (c : compositor) :
  let t := trace_of argv c in
  (In (line "READY") (stdout t) <-> set_up t = true)
  /\ (count_occ string_dec (stdout t) (line "READY") <= 1)%nat
  /\ (In (line "READY") (stdout t) ->
      exists pre post,
        t = pre ++ Printf (line "READY") :: Fflush_stdout :: post
        /\ stdout pre = [] /\ dispatch_calls pre = []
        /\ Forall (fun l => l = line "IDLE" \/ l = line "RESUMED")
             (stdout post)).
Proof.
  cbv zeta. rewrite run_set_up, run_stdout.
  pose proof (tokens_are_idle_or_resumed (delivered_events (dispatches c)))
    as Htok.
  assert (Hno : ~ In (line "READY") (tokens (delivered_events (dispatches c)))).
  { intros Hin. rewrite Forall_forall in Htok.
    destruct (Htok _ Hin) as [E | E]; vm_compute in E; discriminate E. }
  destruct (setup_succeeds c) eqn:Hsetup.
  - split; [split; [reflexivity | now left] | split].
    + cbn [count_occ]. destruct (string_dec _ _) as [_ | Hne]; [| congruence].
      now rewrite (proj1 (count_occ_not_In string_dec _ _) Hno).
    + intros _. apply setup_succeeds_iff in Hsetup as (Hc & Hs & Hn).
      destruct (run_has_shape argv c)
        as [Hc' | _ Hs' | s _ _ Hn' | s n _ _ _ Hl | s n _ _ _ Hl];
        try congruence.
      * exists (opening ++ discovery_trace c
                ++ [Roundtrip_end the_display;
                    Get_idle_notification n (timeout_of_args argv) s
                      (the_notification c);
                    Notification_add_listener (the_notification c)]),
          (loop_trace c ++ teardown (the_notification c) (notifier (finished c))).
        split; [unfold subscription; now rewrite <- !app_assoc |].
        read_run c. rewrite app_nil_r. auto.
      * exists (opening ++ discovery_trace c
                ++ [Roundtrip_end the_display;
                    Get_idle_notification n (timeout_of_args argv) s
                      (the_notification c);
                    Notification_add_listener (the_notification c)]),
          (loop_trace c).
        split; [unfold subscription; now rewrite <- !app_assoc |].
        read_run c. auto.
  - split; [split; [intros [] | discriminate] | split].
    + cbn. lia.
    + intros [].
Qed.

Lemma ready_iff_set_up_witness :
  In (line "READY") (stdout (trace_of [helper; "5000"] desktop))
  /\ exists pre post,
       trace_of [helper; "5000"] desktop
       = pre ++ Printf (line "READY") :: Fflush_stdout :: post
       /\ stdout pre = [] /\ dispatch_calls pre = []
       /\ Forall (fun l => l = line "IDLE" \/ l = line "RESUMED") (stdout post).
Proof.
  assert (H : In (line "READY") (stdout (trace_of [helper; "5000"] desktop)))
    by (vm_compute; auto).
  split; [exact H |].
  exact (proj2 (proj2 (ready_iff_set_up [helper; "5000"] desktop)) H).
Defined.

Lemma run_flushed argv c : flushed (trace_of argv c) = true.
Proof.
  pose proof (discovery_flushed c) as Hd. pose proof (loop_flushed c) as Hl.
  destruct (run_has_shape argv c); try reflexivity;
    repeat (apply flushed_app; try assumption; try reflexivity).
Qed.

(** C2: whatever the dispatch loop is given, the lines it prints are the
    idle and resume events it was given, one line each and in their
    order; in a run that gets to the loop they are all of standard output
    after [READY]; and every [printf] of the run is followed at once by
    [fflush]. *)
Theorem lines_mirror_events :
  (forall display registry notif ds p,
      stdout (trace_by (dispatch_loop display registry notif ds) p)
      = tokens (delivered_events ds)
      /\ flushed (trace_by (dispatch_loop display registry notif ds) p) = true)
  /\ (forall argv c,
         setup_succeeds c = true ->
         stdout (trace_of argv c)
         = line "READY" :: tokens (delivered_events (dispatches c))
         /\ flushed (trace_of argv c) = true).
Proof.
  split.
  - intros display registry notif ds p. split.
    + unfold stdout. rewrite dispatch_loop_reading by reflexivity.
      apply deliver_stdout.
    + apply dispatch_loop_flushed.
  - intros argv c H. split; [| apply run_flushed].
    now rewrite run_stdout, H.
Qed.

Lemma lines_mirror_events_witness :
  setup_succeeds desktop_gone = true
  /\ stdout (trace_of [helper] desktop_gone)
     = [line "READY"; line "IDLE"; line "RESUMED"]
  /\ flushed (trace_of [helper] desktop_gone) = true.
Proof.
  split; [reflexivity |].
  exact (proj2 lines_mirror_events [helper] desktop_gone eq_refl).
Defined.

(** The [notifier] pointer when the loop is over holds the object of the
    last notifier bind, of the round trip or of the loop. *)
Lemma notifier_held_at_exit c :
  held None (notifier_binds (discovery_trace c)
             ++ notifier_binds (loop_trace c))
  = notifier (finished c).
Proof.
  rewrite held_app. destruct (discovered_notifier c) as [<- _].
  destruct (loop_notifier c) as [-> _]. reflexivity.
Qed.

(** The notifier binds of a run that gets to subscribe. *)
Lemma run_notifier_binds argv c :
  setup_succeeds c = true ->
  notifier_binds (trace_of argv c)
  = notifier_binds (discovery_trace c) ++ notifier_binds (loop_trace c).
Proof.
  intros (Hc & Hs & Hn)%setup_succeeds_iff.
  destruct (run_has_shape argv c)
    as [Hc' | _ Hs' | s _ _ Hn' | s n _ Es En Hl | s n _ Es En Hl];
    try congruence;
    unfold opening, subscription, teardown; autorewrite with readings;
    cbn; now rewrite ?app_nil_r.
Qed.

(** C3, as the spec words it, fails: when [wl_display_dispatch] returns
    -1 the loop is left and [main] returns 0, not a nonzero status. *)
Lemma dispatch_failure_status_counterexample :
  setup_succeeds desktop_gone = true
  /\ connection_lost (dispatches desktop_gone) = true
  /\ exit_status [helper] desktop_gone = Exited 0
  /\ ~ (exists code, exit_status [helper] desktop_gone = Exited code /\ code <> 0).
Proof.
  repeat split; try reflexivity.
  intros (code & E & Hne). vm_compute in E. congruence.
Qed.

(** C3, amended: when the loop is left because [wl_display_dispatch]
    returned -1, the program destroys the notification and the notifier
    it holds, which is the object of the last notifier bind, disconnects,
    and returns 0; nothing was destroyed or disconnected before.  While
    no call returns -1 the loop is not left. *)
Theorem dispatch_failure_tears_down (argv : list string) (c : compositor) :
  setup_succeeds c = true ->
  (connection_lost (dispatches c) = true ->
   exit_status argv c = Exited 0
   /\ exists pre n,
        trace_of argv c
        = pre ++ Dispatch_end the_display (-1)
              :: teardown (the_notification c) (Some n)
        /\ In (the_notification c) (map snd (subscriptions pre))
        /\ notifier (finished c) = Some n
        /\ held None (notifier_binds pre) = Some n
        /\ In n (map snd (notifier_binds pre))
        /\ destroyed pre = [] /\ disconnects pre = [])
  /\ (connection_lost (dispatches c) = false -> exit_status argv c = Blocked).
Proof.
  intros Hsetup. apply setup_succeeds_iff in Hsetup as (Hc & Hs & Hn).
  split; intros Hlost;
    destruct (run_has_shape argv c)
      as [Hc' | _ Hs' | s _ _ Hn' | s n _ Es En Hl | s n _ Es En Hl];
    try congruence.
  split; [reflexivity |].
  destruct (dispatch_loop_left the_registry (the_notification c) the_display
              (dispatches c) (subscribed c) Hlost) as [lt Hlt].
  fold (loop_trace c) in Hlt.
  destruct (loop_notifier c) as [Hheld _].
  destruct (notifier (finished c)) as [k |] eqn:Ek;
    [| rewrite En in Hheld; symmetry in Hheld; now apply held_some in Hheld].
  exists (opening ++ discovery_trace c ++ [Roundtrip_end the_display]
          ++ subscription argv n s (the_notification c) ++ lt), k.
  assert (Hpre : notifier_binds (opening ++ discovery_trace c
                  ++ [Roundtrip_end the_display]
                  ++ subscription argv n s (the_notification c) ++ lt)
                 = notifier_binds (discovery_trace c)
                   ++ notifier_binds (loop_trace c)).
  { rewrite Hlt. unfold opening, subscription. autorewrite with readings.
    cbn. now rewrite app_nil_r. }
  split; [rewrite Hlt; now rewrite <- !app_assoc |].
  split; [unfold opening, subscription; autorewrite with readings;
          rewrite (proj1 (proj2 (proj2 (discovery_quiet c)))); cbn; auto |].
  assert (Hk : held None
                 (notifier_binds
                    (opening ++ discovery_trace c
                     ++ [Roundtrip_end the_display]
                     ++ subscription argv n s (the_notification c) ++ lt))
               = Some k)
    by (rewrite Hpre, notifier_held_at_exit; exact Ek).
  split; [reflexivity |]. split; [exact Hk |]. split.
  - apply held_in, Hk.
  - assert (Hd : destroyed lt = [] /\ disconnects lt = []).
    { destruct (loop_quiet c) as (_ & _ & Hd1 & Hd2).
      rewrite Hlt in Hd1, Hd2. autorewrite with readings in Hd1, Hd2.
      cbn in Hd1, Hd2. rewrite app_nil_r in Hd1, Hd2. now split. }
    destruct Hd as [Hd1 Hd2].
    read_run c. rewrite Hd1, Hd2. now split.
Qed.

Lemma dispatch_failure_tears_down_witness :
  setup_succeeds desktop_gone = true
  /\ connection_lost (dispatches desktop_gone) = true
  /\ exit_status [helper] desktop_gone = Exited 0
  /\ exists pre n,
       trace_of [helper] desktop_gone
       = pre ++ Dispatch_end the_display (-1)
             :: teardown (the_notification desktop_gone) (Some n)
       /\ In (the_notification desktop_gone) (map snd (subscriptions pre))
       /\ notifier (finished desktop_gone) = Some n
       /\ held None (notifier_binds pre) = Some n
       /\ In n (map snd (notifier_binds pre))
       /\ destroyed pre = [] /\ disconnects pre = [].
Proof.
  split; [reflexivity | split; [reflexivity |]].
  exact (proj1 (dispatch_failure_tears_down [helper] desktop_gone eq_refl)
           eq_refl).
Defined.

(** C5, as the spec words it, fails: with neither capability advertised
    the idle notifier is a required capability that is not advertised,
    and the one line on standard error does not mention it. *)
Lemma missing_notifier_unmentioned_counterexample :
  connects bare = true
  /\ notifier_adverts (discovery bare) = []
  /\ stderr (trace_of [helper] bare) = [line "ERROR: No wl_seat found"]
  /\ existsb (mentions "idle") (stderr (trace_of [helper] bare)) = false.
Proof. repeat split; reflexivity. Qed.

(** C5, amended: on a connection that was made, when no seat is
    advertised during the round trip the program writes the one line
    [ERROR: No wl_seat found] to standard error; when a seat is advertised
    and no idle notifier, it writes the one line
    [ERROR: ext_idle_notifier_v1 not supported].  In both cases it writes
    nothing to standard output, disconnects once, as the last thing it
    does, and returns 1. *)
Theorem missing_capability_fails (argv : list string) (c : compositor) :
  connects c = true ->
  let t := trace_of argv c in
  let failed_with (msg : string) :=
    stderr t = [line msg]
    /\ String.prefix "ERROR:" (line msg) = true
    /\ stdout t = []
    /\ exit_status argv c = Exited 1
    /\ exists pre, t = pre ++ [Wl_display_disconnect the_display]
                   /\ disconnects pre = [] in
  (seat_adverts (discovery c) = [] ->
   failed_with "ERROR: No wl_seat found"
   /\ mentions "wl_seat" "ERROR: No wl_seat found" = true)
  /\ (seat_adverts (discovery c) <> [] ->
      notifier_adverts (discovery c) = [] ->
      failed_with "ERROR: ext_idle_notifier_v1 not supported"
      /\ mentions "ext_idle_notifier_v1"
           "ERROR: ext_idle_notifier_v1 not supported" = true).
Proof.
  intros Hc. cbv zeta.
  split; [intros Hseat | intros Hseat Hnotifier];
    rewrite <- ?seat_missing_iff, <- ?notifier_missing_iff in *;
    destruct (run_has_shape argv c)
      as [Hc' | _ Hs' | s _ Hs' Hn' | s n _ Hs' Hn' Hl | s n _ Hs' Hn' Hl];
    try congruence.
  - repeat split; try reflexivity; try (now read_run c).
    exists (opening ++ discovery_trace c
            ++ [Roundtrip_end the_display;
                Fprintf_stderr (line "ERROR: No wl_seat found")]).
    split; [now rewrite <- !app_assoc | now read_run c].
  - repeat split; try reflexivity; try (now read_run c).
    exists (opening ++ discovery_trace c
            ++ [Roundtrip_end the_display;
                Fprintf_stderr
                  (line "ERROR: ext_idle_notifier_v1 not supported")]).
    split; [now rewrite <- !app_assoc | now read_run c].
Qed.

Lemma missing_capability_fails_witness :
  (connects bare = true
   /\ seat_adverts (discovery bare) = []
   /\ stderr (trace_of [helper] bare) = [line "ERROR: No wl_seat found"]
   /\ exit_status [helper] bare = Exited 1)
  /\ (connects seat_only = true
      /\ seat_adverts (discovery seat_only) = [2]
      /\ notifier_adverts (discovery seat_only) = []
      /\ stderr (trace_of [helper] seat_only)
         = [line "ERROR: ext_idle_notifier_v1 not supported"]
      /\ exit_status [helper] seat_only = Exited 1).
Proof.
  split; [split; [reflexivity | split; [reflexivity |]]
         | split; [reflexivity | split; [reflexivity | split; [reflexivity |]]]].
  - destruct (proj1 (missing_capability_fails [helper] bare eq_refl) eq_refl)
      as ((Herr & _ & _ & Hexit & _) & _).
    now split.
  - destruct (proj2 (missing_capability_fails [helper] seat_only eq_refl))
      as ((Herr & _ & _ & Hexit & _) & _); [discriminate | reflexivity |].
    now split.
Defined.

(** In a run, the seat binds are those of the round trip. *)
Lemma run_seat_binds argv c :
  seat_binds (trace_of argv c)
  = if connects c then seat_binds (discovery_trace c) else [].
Proof.
  destruct (run_has_shape argv c)
    as [Hc | Hc Hs | s Hc Hs Hn | s n Hc Hs Hn Hl | s n Hc Hs Hn Hl];
    rewrite Hc; try reflexivity; read_run c; rewrite ?app_nil_r;
    try reflexivity;
    destruct (loop_seat c s Hs) as [-> _]; now rewrite app_nil_r.
Qed.

(** C6: whatever is advertised, the only bind against [wl_seat] in a run
    is for the first global advertised as [wl_seat] during the round
    trip, the [seat] pointer holds the object of that bind, and with a
    seat held [registry_global] does nothing on a further [wl_seat]. *)
Theorem seat_bound_once (argv : list string) (c : compositor) :
  map fst (seat_binds (trace_of argv c))
  = (if connects c then firstn 1 (seat_adverts (discovery c)) else [])
  /\ (List.length (seat_binds (trace_of argv c)) <= 1)%nat
  /\ seat (discovered c) = held None (seat_binds (discovery_trace c))
  /\ (forall registry name version s n k,
         registry_global registry name "wl_seat" version
           {| seat := Some s; notifier := n; next_proxy := k |}
         = (tt, {| seat := Some s; notifier := n; next_proxy := k |}, [])).
Proof.
  destruct (discovered_seat c) as [Hheld Hnames].
  assert (H : map fst (seat_binds (trace_of argv c))
              = if connects c then firstn 1 (seat_adverts (discovery c)) else []).
  { rewrite run_seat_binds. destruct (connects c); [exact Hnames | reflexivity]. }
  split; [exact H |]. split; [| split; [exact Hheld | reflexivity]].
  rewrite <- (length_map fst), H.
  destruct (connects c); [| cbn; lia].
  destruct (seat_adverts (discovery c)); cbn; lia.
Qed.

(** C7 does not hold of the code: [registry_global] guards the seat
    branch with [!seat] and leaves the notifier branch unguarded, so every
    advertisement of [ext_idle_notifier_v1] is bound.  With the notifier
    advertised twice there are two binds, and the object of the first is
    never destroyed. *)
Theorem notifier_bound_per_advertisement :
  (forall c, map fst (notifier_binds (discovery_trace c))
             = notifier_adverts (discovery c))
  /\ notifier_adverts (discovery doubled) = [2; 4]
  /\ notifier_binds (trace_of [helper] doubled) = [(2, 4%nat); (4, 5%nat)]
  /\ seat_binds (trace_of [helper] doubled) = [(1, 3%nat)]
  /\ destroyed (trace_of [helper] doubled) = [6%nat; 5%nat].
Proof.
  split; [intros c; apply discovered_notifier |].
  repeat split; reflexivity.
Qed.

Lemma run_subscriptions argv c :
  subscriptions (trace_of argv c)
  = match seat (discovered c), notifier (discovered c) with
    | Some s, Some n =>
        if connects c
        then [(n, timeout_of_args argv, s, the_notification c)] else []
    | _, _ => []
    end.
Proof.
  destruct (run_has_shape argv c)
    as [Hc | Hc Hs | s Hc Hs Hn | s n Hc Hs Hn Hl | s n Hc Hs Hn Hl];
    rewrite ?Hc, ?Hs, ?Hn; try (now read_run c).
  now destruct (seat (discovered c)), (notifier (discovered c)).
Qed.

(** C8: in a run that gets to subscribe, the trace up to the
    subscription is the opening, the listener's work over all the
    advertisements of the round trip and the return of the round trip;
    the one subscription of the run comes next, made from the notifier
    and the seat that the listener bound over those advertisements, with
    the timeout of the command line. *)
Theorem subscription_follows_discovery (argv : list string) (c : compositor) :
  setup_succeeds c = true ->
  exists s n post,
    trace_of argv c
    = (opening ++ discovery_trace c ++ [Roundtrip_end the_display])
      ++ Get_idle_notification n (timeout_of_args argv) s (the_notification c)
         :: post
    /\ subscriptions (trace_of argv c)
       = [(n, timeout_of_args argv, s, the_notification c)]
    /\ seat (discovered c) = Some s /\ notifier (discovered c) = Some n
    /\ In s (map snd (seat_binds (discovery_trace c)))
    /\ In n (map snd (notifier_binds (discovery_trace c)))
    /\ map fst (seat_binds (discovery_trace c))
       = firstn 1 (seat_adverts (discovery c))
    /\ map fst (notifier_binds (discovery_trace c))
       = notifier_adverts (discovery c).
Proof.
  intros Hsetup. apply setup_succeeds_iff in Hsetup as (Hc & Hs & Hn).
  destruct (seat (discovered c)) as [s |] eqn:Es; [| congruence].
  destruct (notifier (discovered c)) as [n |] eqn:En; [| congruence].
  destruct (discovered_seat c) as [Hsh Hsn].
  destruct (discovered_notifier c) as [Hnh Hnn].
  assert (Hsub := run_subscriptions argv c). rewrite Es, En, Hc in Hsub.
  destruct (run_has_shape argv c)
    as [Hc' | _ Hs' | s' _ _ Hn' | s' n' _ Es' En' Hl | s' n' _ Es' En' Hl];
    try congruence;
    assert (s' = s) by congruence; assert (n' = n) by congruence; subst s' n';
    eexists s, n, _;
    (split; [unfold subscription; rewrite <- !app_assoc; reflexivity |]);
    repeat split; auto; apply held_in; congruence.
Qed.

Lemma subscription_follows_discovery_witness :
  setup_succeeds desktop = true
  /\ exists s n post,
    trace_of [helper; "2500"] desktop
    = (opening ++ discovery_trace desktop ++ [Roundtrip_end the_display])
      ++ Get_idle_notification n 2500 s (the_notification desktop) :: post
    /\ subscriptions (trace_of [helper; "2500"] desktop)
       = [(n, 2500, s, the_notification desktop)].
Proof.
  destruct (subscription_follows_discovery [helper; "2500"] desktop eq_refl)
    as (s & n & post & Ht & Hsub & _).
  split; [reflexivity |].
  exists s, n, post. split; [exact Ht | exact Hsub].
Defined.

(** ** Which object is which *)

Lemma held_cases before bs :
  held before bs = before \/ exists b, In b bs /\ held before bs = Some (snd b).
Proof.
  induction bs as [| b bs _] using rev_ind; [now left |].
  right. exists b. rewrite held_app, in_app_iff. cbn. auto.
Qed.

(** The notifier held when the loop is left was bound during the round
    trip, before the notification was made, or during the loop, after
    it. *)
Lemma notifier_at_exit c n k :
  notifier (discovered c) = Some n ->
  notifier (finished c) = Some k ->
  (In k (map snd (notifier_binds (discovery_trace c)))
   /\ (k < the_notification c)%nat)
  \/ (the_notification c < k)%nat.
Proof.
  intros Hn Hk.
  destruct (discovery_fresh c) as (_ & Hd & _).
  destruct (loop_fresh c) as (_ & Hl & _).
  destruct (loop_notifier c) as [Hheld _]. rewrite Hk, Hn in Hheld.
  destruct (held_cases (Some n) (notifier_binds (loop_trace c)))
    as [E | (b & Hb & E)]; rewrite E in Hheld; injection Hheld as ->.
  - left. destruct (discovered_notifier c) as [Hh _]. rewrite Hn in Hh.
    symmetry in Hh. apply held_in in Hh. split; [exact Hh |].
    apply in_map_iff in Hh as (b & <- & Hb).
    apply (Hd b), in_or_app. now right.
  - right. specialize (Hl b (in_or_app _ _ _ (or_intror Hb))).
    unfold subscribed in Hl. cbn [next_proxy] in Hl. lia.
Qed.

(** A seat object is older than the notification and is no notifier
    object. *)
Lemma seat_identity c b :
  In b (seat_binds (discovery_trace c)) ->
  (snd b < the_notification c)%nat
  /\ ~ In (snd b) (map snd (notifier_binds (discovery_trace c))).
Proof.
  intros Hb. destruct (discovery_fresh c) as (_ & Hd & Hsn). split.
  - apply (Hd b), in_or_app. now left.
  - intros (n & E & Hn)%in_map_iff. now apply (Hsn b n).
Qed.

(** C9, as the spec words it, fails: the seat object is a capability
    handle that was created, and the program disconnects without ever
    destroying it, on the path through the loop and on the path of the
    missing notifier. *)
Lemma seat_not_destroyed_counterexample :
  (exit_status [helper] desktop_gone = Exited 0
   /\ seat_binds (trace_of [helper] desktop_gone) = [(2, 3%nat)]
   /\ disconnects (trace_of [helper] desktop_gone) = [the_display]
   /\ ~ In 3%nat (destroyed (trace_of [helper] desktop_gone)))
  /\ (exit_status [helper] seat_only = Exited 1
      /\ seat_binds (trace_of [helper] seat_only) = [(2, 3%nat)]
      /\ disconnects (trace_of [helper] seat_only) = [the_display]
      /\ destroyed (trace_of [helper] seat_only) = []).
Proof.
  repeat split; try reflexivity.
  vm_compute. intros [H | [H | []]]; discriminate H.
Qed.

(** C9, amended: on every path on which [main] returns after the
    connection was made, [wl_display_disconnect] is called once, as the
    last call; before it, the notification of every subscription made and
    the notifier then held are destroyed, nothing is destroyed twice, and
    no seat object is destroyed. *)
Theorem teardown_on_exit (argv : list string) (c : compositor) (code : Z) :
  connects c = true ->
  exit_status argv c = Exited code ->
  exists pre,
    trace_of argv c = pre ++ [Wl_display_disconnect the_display]
    /\ disconnects pre = []
    /\ NoDup (destroyed pre)
    /\ (forall sub, In sub (subscriptions pre) -> In (snd sub) (destroyed pre))
    /\ (subscriptions pre <> [] ->
        exists n, held None (notifier_binds pre) = Some n
                  /\ In n (destroyed pre))
    /\ (forall b, In b (seat_binds pre) -> ~ In (snd b) (destroyed pre)).
Proof.
  intros Hc Hexit.
  destruct (run_has_shape argv c)
    as [Hc' | _ Hs | s _ Hs Hn | s n _ Hs Hn Hl | s n _ Hs Hn Hl];
    try congruence.
  - exists (opening ++ discovery_trace c
            ++ [Roundtrip_end the_display;
                Fprintf_stderr (line "ERROR: No wl_seat found")]).
    split; [now rewrite <- !app_assoc |]. read_run c.
    repeat split; try easy. constructor.
  - exists (opening ++ discovery_trace c
            ++ [Roundtrip_end the_display;
                Fprintf_stderr
                  (line "ERROR: ext_idle_notifier_v1 not supported")]).
    split; [now rewrite <- !app_assoc |]. read_run c.
    repeat split; try easy. constructor.
  - destruct (loop_notifier c) as [Hheld _].
    destruct (notifier (finished c)) as [k |] eqn:Ek;
      [| rewrite Hn in Hheld; symmetry in Hheld; now apply held_some in Hheld].
    destruct (loop_seat c s Hs) as [Hlseat _].
    pose proof (notifier_at_exit c n k Hn Ek) as Hk.
    exists (opening ++ discovery_trace c ++ [Roundtrip_end the_display]
            ++ subscription argv n s (the_notification c) ++ loop_trace c
            ++ [Ext_idle_notification_v1_destroy (the_notification c);
                Ext_idle_notifier_v1_destroy (Some k)]).
    split; [unfold teardown; now rewrite <- !app_assoc |].
    read_run c. rewrite !app_nil_r.
    split; [reflexivity |]. split; [| split; [| split]].
    + repeat constructor; cbn; [| tauto]. intros [E | []]. lia.
    + intros sub [<- | []]. cbn. auto.
    + intros _. exists k. split; [| auto].
      change (held None (notifier_binds (discovery_trace c)
                         ++ notifier_binds (loop_trace c)) = Some k).
      rewrite held_app. destruct (discovered_notifier c) as [<- _].
      now symmetry.
    + intros b Hb. destruct (seat_identity c b Hb) as [Hlt Hnot].
      intros [E | [E | []]]; [lia |]. subst k.
      destruct Hk as [[Hin _] | Hgt]; [tauto | lia].
Qed.

Lemma teardown_on_exit_witness :
  connects desktop_gone = true
  /\ exit_status [helper] desktop_gone = Exited 0
  /\ exists pre,
    trace_of [helper] desktop_gone = pre ++ [Wl_display_disconnect the_display]
    /\ disconnects pre = []
    /\ NoDup (destroyed pre)
    /\ (forall sub, In sub (subscriptions pre) -> In (snd sub) (destroyed pre))
    /\ (subscriptions pre <> [] ->
        exists n, held None (notifier_binds pre) = Some n
                  /\ In n (destroyed pre))
    /\ (forall b, In b (seat_binds pre) -> ~ In (snd b) (destroyed pre)).
Proof.
  split; [reflexivity | split; [reflexivity |]].
  exact (teardown_on_exit [helper] desktop_gone 0 eq_refl eq_refl).
Defined.

(** * Further properties of the program *)

(** ** Events the listener does nothing with *)

Lemma for_each_filter {A} (f : A -> prog unit) (keep : A -> bool) :
  (forall x p, keep x = false -> f x p = (tt, p, [])) ->
  forall l p, for_each f (filter keep l) p = for_each f l p.
Proof.
  intros Hf. induction l as [| x l IH]; intros p; [reflexivity |].
  cbn [filter]. destruct (keep x) eqn:Hk.
  - cbn [for_each]. unfold bind. destruct (f x p) as [[u q] t].
    now rewrite IH.
  - rewrite IH. cbn [for_each]. unfold bind. rewrite (Hf x p Hk).
    now destruct (for_each f l p) as [[[] q] t].
Qed.

Lemma registry_listener_inert registry e p :
  inert e = true -> registry_listener registry e p = (tt, p, []).
Proof.
  destruct e as [name interface version | name]; [| reflexivity].
  cbn [inert registry_listener]. rewrite registry_global_run.
  intros [H1 H2]%andb_true_iff.
  apply negb_true_iff in H1, H2. now rewrite H1, H2.
Qed.

Section Pruning.

Variable keep : registry_event -> bool.
Hypothesis keep_spec : forall e, keep e = false -> inert e = true.

Lemma listeners_dropped registry notif e p :
  kept keep e = false -> listeners registry notif e p = (tt, p, []).
Proof.
  destruct e as [r | |]; try discriminate. cbn [kept listeners].
  intros H. apply registry_listener_inert, keep_spec, H.
Qed.

Lemma dispatch_loop_prune display registry notif ds : forall p,
  dispatch_loop display registry notif (map (prune_dispatch keep) ds) p
  = dispatch_loop display registry notif ds p.
Proof.
  induction ds as [| d ds IH]; intros p; [reflexivity |].
  cbn [map]. rewrite !dispatch_loop_cons. cbn [prune_dispatch delivered returned].
  unfold value, state_after, trace_by.
  rewrite (for_each_filter _ _ (listeners_dropped registry notif)).
  now rewrite !IH.
Qed.

Lemma connection_lost_prune ds :
  connection_lost (map (prune_dispatch keep) ds) = connection_lost ds.
Proof.
  unfold connection_lost. induction ds as [| d ds IH]; [reflexivity |].
  cbn. now rewrite IH.
Qed.

Lemma discovery_prune registry p (evs : list registry_event) :
  for_each (registry_listener registry) (filter keep evs) p
  = for_each (registry_listener registry) evs p.
Proof.
  apply for_each_filter. intros e q H.
  apply registry_listener_inert, keep_spec, H.
Qed.

Lemma main_prune argv c : main argv (prune keep c) initial = main argv c initial.
Proof.
  destruct (connects c) eqn:Hc.
  - rewrite (main_connected argv (prune keep c)), (main_connected argv c)
      by assumption.
    assert (Hd : discovered (prune keep c) = discovered c)
      by (unfold discovered, prune, state_after; cbn [discovery];
          now rewrite discovery_prune).
    assert (Ht : discovery_trace (prune keep c) = discovery_trace c)
      by (unfold discovery_trace, prune, trace_by; cbn [discovery];
          now rewrite discovery_prune).
    assert (Hk : the_notification (prune keep c) = the_notification c)
      by (unfold the_notification; now rewrite Hd).
    assert (Hs : subscribed (prune keep c) = subscribed c)
      by (unfold subscribed; now rewrite Hd, Hk).
    assert (Hl : loop_trace (prune keep c) = loop_trace c)
      by (unfold loop_trace, trace_by; rewrite Hk, Hs; unfold prune;
          cbn [dispatches]; now rewrite dispatch_loop_prune).
    assert (Hf : finished (prune keep c) = finished c)
      by (unfold finished, state_after; rewrite Hk, Hs; unfold prune;
          cbn [dispatches]; now rewrite dispatch_loop_prune).
    assert (Hlost : connection_lost (dispatches (prune keep c))
                    = connection_lost (dispatches c))
      by apply connection_lost_prune.
    now rewrite Hd, Ht, Hk, Hl, Hf, Hlost.
  - now rewrite (main_not_connected argv (prune keep c)),
      (main_not_connected argv c).
Qed.

End Pruning.

(** X1: Registry events on which [registry_global] takes neither branch,
    and all that [registry_global_remove] receives, change nothing:
    a run without any of them has the same trace and the same status. *)
Theorem inert_events_change_nothing
    (keep : registry_event -> bool) (argv : list string) (c : compositor) :
  (forall e, keep e = false -> inert e = true) ->
  trace_of argv (prune keep c) = trace_of argv c
  /\ exit_status argv (prune keep c) = exit_status argv c.
Proof.
  intros Hkeep. unfold trace_of, exit_status, trace_by, value.
  now rewrite (main_prune keep Hkeep).
Qed.

Lemma inert_events_change_nothing_witness :
  discovery (prune (fun e => negb (inert e)) noisy)
  = [global 2 "wl_seat" 9; global 3 "ext_idle_notifier_v1" 2]
  /\ trace_of [helper] (prune (fun e => negb (inert e)) noisy)
     = trace_of [helper] noisy
  /\ exit_status [helper] (prune (fun e => negb (inert e)) noisy)
     = exit_status [helper] noisy.
Proof.
  split; [reflexivity |].
  apply (inert_events_change_nothing (fun e => negb (inert e)) [helper] noisy).
  intros e H. now apply negb_false_iff in H.
Defined.

(** ** The status and standard error of every run *)

(** X2: [main] returns 1 when it could not subscribe and 0 when the loop
    was left; while no [wl_display_dispatch] returns -1 it does not
    return. *)
Theorem exit_status_of_run (argv : list string) (c : compositor) :
  exit_status argv c
  = if setup_succeeds c
    then if connection_lost (dispatches c) then Exited 0 else Blocked
    else Exited 1.
Proof.
  destruct (run_has_shape argv c)
    as [Hc | Hc Hs | s Hc Hs Hn | s n Hc Hs Hn Hl | s n Hc Hs Hn Hl];
    rewrite ?Hl;
    first [ now rewrite (proj2 (setup_fails_iff c)) by auto
          | now rewrite (proj2 (setup_succeeds_iff c))
              by (rewrite Hs, Hn; easy) ].
Qed.

(** X3: Standard error holds one line, for the first thing that is
    missing, or nothing at all: a run that gets to subscribe writes
    nothing there, also when the loop is left. *)
Theorem stderr_of_run (argv : list string) (c : compositor) :
  stderr (trace_of argv c)
  = if negb (connects c)
    then [line "ERROR: Cannot connect to Wayland display"]
    else if is_nil (seat_adverts (discovery c))
    then [line "ERROR: No wl_seat found"]
    else if is_nil (notifier_adverts (discovery c))
    then [line "ERROR: ext_idle_notifier_v1 not supported"]
    else [].
Proof.
  assert (Hnil : forall X (l : list X), is_nil l = true <-> l = [])
    by (intros X [| x l]; cbn; split; congruence).
  assert (Hcons : forall X (l : list X), is_nil l = false <-> l <> [])
    by (intros X [| x l]; cbn; split; congruence).
  destruct (run_has_shape argv c)
    as [Hc | Hc Hs | s Hc Hs Hn | s n Hc Hs Hn Hl | s n Hc Hs Hn Hl];
    rewrite Hc; cbn [negb]; try reflexivity.
  - apply seat_missing_iff in Hs. rewrite (proj2 (Hnil _ _) Hs). now read_run c.
  - rewrite (proj2 (Hcons _ _)), (proj2 (Hnil _ _)).
    + now read_run c.
    + now apply notifier_missing_iff.
    + rewrite <- seat_missing_iff. congruence.
  - rewrite !(proj2 (Hcons _ _)).
    + now read_run c.
    + rewrite <- notifier_missing_iff. congruence.
    + rewrite <- seat_missing_iff. congruence.
  - rewrite !(proj2 (Hcons _ _)).
    + now read_run c.
    + rewrite <- notifier_missing_iff. congruence.
    + rewrite <- seat_missing_iff. congruence.
Qed.

(** X4: Without a display the program makes no other call: it reports the
    failure and returns 1, whatever the command line says. *)
Theorem no_display_no_calls (argv : list string) (c : compositor) :
  connects c = false ->
  trace_of argv c
  = [Wl_display_connect None;
     Fprintf_stderr (line "ERROR: Cannot connect to Wayland display")]
  /\ exit_status argv c = Exited 1.
Proof.
  intros Hc. unfold trace_of, exit_status, trace_by, value.
  now rewrite (main_not_connected argv c Hc).
Qed.

Lemma no_display_no_calls_witness :
  connects {| connects := false; discovery := discovery desktop;
              dispatches := dispatches desktop |} = false
  /\ stdout (trace_of [helper; "250"]
               {| connects := false; discovery := discovery desktop;
                  dispatches := dispatches desktop |}) = []
  /\ disconnects (trace_of [helper; "250"]
                    {| connects := false; discovery := discovery desktop;
                       dispatches := dispatches desktop |}) = [].
Proof.
  split; [reflexivity |].
  rewrite (proj1 (no_display_no_calls [helper; "250"]
                    {| connects := false; discovery := discovery desktop;
                       dispatches := dispatches desktop |} eq_refl)).
  split; reflexivity.
Defined.

(** ** The loop and the length of the script *)

Section Continuation.

Variables display registry notif : proxy.

Local Abbreviation loop := (dispatch_loop display registry notif).

(** Once a [wl_display_dispatch] has returned -1 the loop makes no
    further call. *)
Lemma dispatch_loop_stops ds more : forall p,
  connection_lost ds = true -> loop (ds ++ more) p = loop ds p.
Proof.
  induction ds as [| d ds IH]; intros p Hlost; [discriminate |].
  rewrite <- app_comm_cons, !dispatch_loop_cons.
  cbn [connection_lost existsb] in Hlost.
  destruct (returned d =? -1); [reflexivity |].
  unfold value, state_after, trace_by. now rewrite IH.
Qed.

(** While none has, what the loop has done is the beginning of what it
    does on a longer script. *)
Lemma dispatch_loop_extends ds more : forall p,
  connection_lost ds = false ->
  exists rest, trace_by (loop (ds ++ more)) p = trace_by (loop ds) p ++ rest.
Proof.
  induction ds as [| d ds IH]; intros p Hlost.
  - cbn [app]. destruct more as [| d more]; [now exists [] |].
    unfold trace_by at 1. rewrite dispatch_loop_cons.
    destruct (returned d =? -1); cbn [snd]; eexists; reflexivity.
  - cbn [connection_lost existsb] in Hlost.
    rewrite <- app_comm_cons. unfold trace_by at 1 2.
    rewrite !dispatch_loop_cons.
    destruct (returned d =? -1); [discriminate |]. cbn [snd orb] in *.
    destruct (IH (state_after
                    (for_each (listeners registry notif) (delivered d)) p)
                Hlost) as [rest Hrest].
    exists rest. rewrite Hrest. now rewrite app_assoc.
Qed.

Lemma connection_lost_app ds more :
  connection_lost (ds ++ more) = connection_lost ds || connection_lost more.
Proof. apply existsb_app. Qed.

End Continuation.

(** X5: What comes in the script after the first [wl_display_dispatch] that
    returns -1 is never asked for: the run is the same without it. *)
Theorem nothing_after_connection_lost
    (argv : list string) (c : compositor) (more : list dispatch) :
  connection_lost (dispatches c) = true ->
  trace_of argv (and_then c more) = trace_of argv c
  /\ exit_status argv (and_then c more) = exit_status argv c.
Proof.
  intros Hlost.
  assert (H : main argv (and_then c more) initial = main argv c initial).
  { destruct (connects c) eqn:Hc.
    - rewrite (main_connected argv (and_then c more)), (main_connected argv c)
        by assumption.
      change (discovered (and_then c more)) with (discovered c).
      change (discovery_trace (and_then c more)) with (discovery_trace c).
      change (the_notification (and_then c more)) with (the_notification c).
      assert (Hl : loop_trace (and_then c more) = loop_trace c)
        by (unfold loop_trace, trace_by; cbn [and_then dispatches];
            now rewrite dispatch_loop_stops).
      assert (Hf : finished (and_then c more) = finished c)
        by (unfold finished, state_after; cbn [and_then dispatches];
            now rewrite dispatch_loop_stops).
      rewrite Hl, Hf. cbn [and_then dispatches].
      now rewrite connection_lost_app, Hlost.
    - now rewrite (main_not_connected argv (and_then c more)),
        (main_not_connected argv c). }
  unfold trace_of, exit_status, trace_by, value. now rewrite H.
Qed.

Lemma nothing_after_connection_lost_witness :
  connection_lost (dispatches desktop_gone) = true
  /\ stdout (trace_of [helper]
               (and_then desktop_gone [Dispatch [idled; resumed] 2]))
     = [line "READY"; line "IDLE"; line "RESUMED"].
Proof.
  split; [reflexivity |].
  rewrite (proj1 (nothing_after_connection_lost [helper] desktop_gone
                    [Dispatch [idled; resumed] 2] eq_refl)).
  reflexivity.
Defined.

(** X6: While no [wl_display_dispatch] has returned -1, the trace of the
    run is the beginning of its trace on any longer script: what the
    program has done and written is not taken back by what comes next. *)
Theorem trace_grows_with_script
    (argv : list string) (c : compositor) (more : list dispatch) :
  connection_lost (dispatches c) = false ->
  exists rest,
    trace_of argv (and_then c more) = trace_of argv c ++ rest
    /\ stdout (trace_of argv (and_then c more))
       = stdout (trace_of argv c) ++ stdout rest.
Proof.
  intros Hlost.
  assert (H : exists rest,
             trace_of argv (and_then c more) = trace_of argv c ++ rest).
  { unfold trace_of, trace_by. destruct (connects c) eqn:Hc.
    - rewrite (main_connected argv (and_then c more)), (main_connected argv c)
        by assumption.
      change (discovered (and_then c more)) with (discovered c).
      change (discovery_trace (and_then c more)) with (discovery_trace c).
      change (the_notification (and_then c more)) with (the_notification c).
      rewrite Hlost.
      destruct (seat (discovered c)) as [s |];
        [destruct (notifier (discovered c)) as [n |] |];
        try (exists []; cbn [snd]; now rewrite app_nil_r).
      destruct (dispatch_loop_extends the_display the_registry
                  (the_notification c) (dispatches c) more (subscribed c) Hlost)
        as [rest Hrest].
      assert (Hl : loop_trace (and_then c more) = loop_trace c ++ rest)
        by exact Hrest.
      rewrite Hl.
      destruct (connection_lost (dispatches (and_then c more)));
        cbn [snd]; eexists; rewrite <- !app_assoc; reflexivity.
    - rewrite (main_not_connected argv (and_then c more)),
        (main_not_connected argv c) by assumption.
      exists []. now rewrite app_nil_r. }
  destruct H as [rest H]. exists rest. split; [exact H |].
  now rewrite H, stdout_app.
Qed.

Lemma trace_grows_with_script_witness :
  connection_lost (dispatches desktop) = false
  /\ exists rest,
       trace_of [helper] (and_then desktop [Dispatch [idled] 1])
       = trace_of [helper] desktop ++ rest
       /\ stdout (trace_of [helper] (and_then desktop [Dispatch [idled] 1]))
          = stdout (trace_of [helper] desktop) ++ stdout rest.
Proof.
  split; [reflexivity |].
  exact (trace_grows_with_script [helper] desktop [Dispatch [idled] 1] eq_refl).
Defined.

(** ** More on the timeout argument *)

Lemma skip_spaces_app (ws s : string) :
  all_spaces ws = true -> skip_spaces (ws ++ s) = skip_spaces s.
Proof.
  induction ws as [| ch ws IH]; [reflexivity |].
  cbn [all_spaces String.append skip_spaces].
  intros [Hch Hws]%andb_true_iff. rewrite Hch. now apply IH.
Qed.

Lemma atol_skips_spaces (ws s : string) :
  all_spaces ws = true -> atol (ws ++ s) = atol s.
Proof. intros H. unfold atol. now rewrite skip_spaces_app. Qed.

Lemma digits_value_stops (ds : list Z) (junk : string) :
  Forall is_digit ds -> starts_with_digit junk = false ->
  forall acc,
    digits_value acc (numeral ds ++ junk) = digits_value acc (numeral ds).
Proof.
  intros Hds Hjunk. induction Hds as [| d ds Hd _ IH]; intros acc.
  - now apply digits_value_no_digit.
  - cbn [numeral String.append digits_value].
    destruct (isdigit (digit_char d)); [apply IH | reflexivity].
Qed.

Lemma numeral_starts_with_digit (ds : list Z) (junk : string) :
  ds <> [] -> Forall is_digit ds ->
  starts_with_digit (numeral ds ++ junk) = true.
Proof.
  intros Hne Hds. destruct ds as [| d ds]; [congruence |].
  inversion Hds; subst. cbn. now apply digit_char_spec.
Qed.

Lemma atol_stops_at_junk (ds : list Z) (junk : string) :
  ds <> [] -> Forall is_digit ds -> starts_with_digit junk = false ->
  atol (numeral ds ++ junk) = atol (numeral ds).
Proof.
  intros Hne Hds Hjunk.
  assert (H0 : starts_with_digit (numeral ds) = true).
  { destruct ds as [| d ds]; [congruence |].
    inversion Hds; subst. cbn. now apply digit_char_spec. }
  rewrite (atol_of_digits (numeral ds ++ junk))
    by now apply numeral_starts_with_digit.
  now rewrite (atol_of_digits (numeral ds) H0), digits_value_stops.
Qed.

Lemma atol_plus (s : string) :
  starts_with_digit s = true -> atol (String "+" s) = atol s.
Proof. intros H. now rewrite (atol_of_digits s H). Qed.

(** X7: The argument is read the way [atol] reads: white space in front, a
    plus sign and whatever follows the digits make no difference to the
    timeout. *)
Theorem timeout_reads_leading_number
    (prog ws junk : string) (ds : list Z) (rest : list string) :
  all_spaces ws = true ->
  ds <> [] -> Forall is_digit ds ->
  starts_with_digit junk = false ->
  timeout_of_args (prog :: (ws ++ numeral ds ++ junk)%string :: rest)
  = timeout_of_args (prog :: numeral ds :: rest)
  /\ timeout_of_args
       (prog :: (ws ++ String "+" (numeral ds ++ junk))%string :: rest)
     = timeout_of_args (prog :: numeral ds :: rest).
Proof.
  intros Hws Hne Hds Hjunk.
  rewrite !timeout_of_argument.
  rewrite (atol_skips_spaces ws (numeral ds ++ junk) Hws).
  rewrite (atol_skips_spaces ws (String "+" (numeral ds ++ junk)) Hws).
  rewrite atol_plus by now apply numeral_starts_with_digit.
  now rewrite atol_stops_at_junk.
Qed.

Lemma timeout_reads_leading_number_witness :
  timeout_of_args [helper; "  750ms"] = 750
  /\ timeout_of_args [helper; "  +750ms"] = 750.
Proof.
  assert (Hds : Forall is_digit [7; 5; 0])
    by (repeat constructor; unfold is_digit; lia).
  destruct (timeout_reads_leading_number helper "  " "ms" [7; 5; 0] []
              eq_refl ltac:(discriminate) Hds eq_refl) as [H1 H2].
  split; [exact H1 | exact H2].
Defined.

(** X8: The timeout always fits [uint32_t]; it is 0 only for an argument
    whose [atol] value is a positive multiple of 2^32. *)
Theorem timeout_in_range (argv : list string) :
  0 <= timeout_of_args argv < 2 ^ 32
  /\ (timeout_of_args argv = 0 <->
      (1 < List.length argv)%nat
      /\ 0 < atol (nth 1 argv "")
      /\ atol (nth 1 argv "") mod 2 ^ 32 = 0).
Proof.
  unfold timeout_of_args, to_uint32.
  pose proof (Z.mod_pos_bound (atol (nth 1 argv "")) (2 ^ 32) ltac:(lia))
    as Hmod.
  destruct (Z.ltb_spec 1 (Z.of_nat (List.length argv))) as [Hargc | Hargc];
    [destruct (Z.ltb_spec 0 (atol (nth 1 argv ""))) as [Hval | Hval] |];
    (split; [lia | split; [intros E | intros (Ha & Hb & Hc)]]);
    try lia; try (repeat split; lia).
Qed.

Lemma timeout_in_range_witness :
  timeout_of_args [helper; "8589934592"] = 0
  /\ 0 < atol "8589934592" /\ atol "8589934592" mod 2 ^ 32 = 0.
Proof.
  assert (H : timeout_of_args [helper; "8589934592"] = 0) by reflexivity.
  split; [exact H |].
  exact (proj2 (proj1 (proj2 (timeout_in_range [helper; "8589934592"])) H)).
Defined.

(** ** Every bind of a run *)

Lemma for_each_Forall {A} (P : action -> Prop) (f : A -> prog unit) :
  (forall x p, Forall P (trace_by (f x) p)) ->
  forall l p, Forall P (trace_by (for_each f l) p).
Proof.
  intros Hf. induction l as [| x l IH]; intros p; [constructor |].
  rewrite trace_by_for_each_cons. apply Forall_app. split; [apply Hf | apply IH].
Qed.

Lemma listeners_bind_as_written notif e p :
  Forall bind_as_written (trace_by (listeners the_registry notif e) p).
Proof.
  unfold trace_by. rewrite listeners_run.
  destruct e as [[name interface version | name] | |];
    try (repeat constructor).
  rewrite registry_global_run.
  destruct ((interface =? "wl_seat")%string && is_null (seat p));
    [| destruct (interface =? "ext_idle_notifier_v1")%string];
    repeat constructor.
Qed.

Lemma dispatch_loop_bind_as_written notif ds : forall p,
  Forall bind_as_written
    (trace_by (dispatch_loop the_display the_registry notif ds) p).
Proof.
  induction ds as [| d ds IH]; intros p; [repeat constructor |].
  unfold trace_by at 1. rewrite dispatch_loop_cons.
  assert (H : Forall bind_as_written
                (Dispatch_begin the_display
                 :: trace_by (for_each (listeners the_registry notif)
                                (delivered d)) p
                 ++ [Dispatch_end the_display (returned d)])).
  { constructor; [exact I |]. apply Forall_app. split.
    - apply for_each_Forall. intros e q. apply listeners_bind_as_written.
    - repeat constructor. }
  destruct (returned d =? -1); cbn [snd]; [exact H |].
  apply Forall_app. split; [exact H | apply IH].
Qed.

(** X9: Whatever versions the compositor advertises, every
    [wl_registry_bind] of a run is made on the registry of the run and
    asks for version 1. *)
Theorem binds_as_written (argv : list string) (c : compositor) :
  Forall bind_as_written (trace_of argv c).
Proof.
  assert (Hd : Forall bind_as_written (discovery_trace c)).
  { unfold discovery_trace. rewrite (round_trip_delivers the_registry 0%nat).
    apply for_each_Forall. intros e q. apply listeners_bind_as_written. }
  assert (Hl : Forall bind_as_written (loop_trace c))
    by apply dispatch_loop_bind_as_written.
  destruct (run_has_shape argv c);
    repeat first [ apply Forall_app; split
                 | assumption
                 | solve [repeat constructor] ].
Qed.

(** ** What the command line can change *)

(** X10: The command line changes neither the status of the run nor what is
    written to standard output and standard error, and two command lines
    with the same timeout give the same run. *)
Theorem command_line_sets_timeout_only
    (argv argv' : list string) (c : compositor) :
  exit_status argv c = exit_status argv' c
  /\ stdout (trace_of argv c) = stdout (trace_of argv' c)
  /\ stderr (trace_of argv c) = stderr (trace_of argv' c)
  /\ (timeout_of_args argv = timeout_of_args argv' ->
      trace_of argv c = trace_of argv' c).
Proof.
  unfold exit_status, trace_of, value, trace_by.
  destruct (connects c) eqn:Hc.
  - rewrite (main_connected argv c Hc), (main_connected argv' c Hc).
    destruct (seat (discovered c)) as [s |];
      [destruct (notifier (discovered c)) as [n |];
       [destruct (connection_lost (dispatches c)) |] |];
      cbn [fst snd]; repeat split; try reflexivity;
      try (intros H; unfold subscription; now rewrite H);
      unfold subscription; now autorewrite with readings.
  - rewrite (main_not_connected argv c Hc), (main_not_connected argv' c Hc).
    repeat split; reflexivity.
Qed.

Lemma command_line_sets_timeout_only_witness :
  timeout_of_args [helper; "10000"] = timeout_of_args [helper; "never"]
  /\ trace_of [helper; "10000"] desktop_gone
     = trace_of [helper; "never"] desktop_gone.
Proof.
  split; [reflexivity |].
  exact (proj2 (proj2 (proj2 (command_line_sets_timeout_only
                                [helper; "10000"] [helper; "never"]
                                desktop_gone))) eq_refl).
Defined.

(** ** The notifier that is destroyed *)

Lemma held_is_last bs k :
  held None bs = Some k -> exists others name, bs = others ++ [(name, k)].
Proof.
  induction bs as [| [name r] bs _] using rev_ind; [discriminate |].
  rewrite held_app. cbn. intros [= <-]. now exists bs, name.
Qed.

Lemma held_last before bs :
  bs <> [] -> exists b, In b bs /\ held before bs = Some (snd b).
Proof.
  induction bs as [| b bs _] using rev_ind; [congruence |].
  intros _. exists b. rewrite held_app, in_app_iff. cbn. auto.
Qed.

(** X11: When the loop is left, the notifier that is destroyed is the one
    bound last in the run, the object the [notifier] pointer holds.  It
    is the notifier of the subscription as long as no idle notifier was
    advertised while the loop ran; after such an advertisement it is
    another object, and the notifier of the subscription is not
    destroyed. *)
Theorem destroyed_notifier_is_last_bound (argv : list string) (c : compositor) :
  setup_succeeds c = true ->
  connection_lost (dispatches c) = true ->
  let late :=
    notifier_adverts (registry_events (delivered_events (dispatches c))) in
  exists n s k,
    subscriptions (trace_of argv c)
    = [(n, timeout_of_args argv, s, the_notification c)]
    /\ destroyed (trace_of argv c) = [the_notification c; k]
    /\ notifier (finished c) = Some k
    /\ held None (notifier_binds (trace_of argv c)) = Some k
    /\ (exists others name,
           notifier_binds (trace_of argv c) = others ++ [(name, k)])
    /\ (late = [] -> k = n)
    /\ (late <> [] -> k <> n /\ ~ In n (destroyed (trace_of argv c))).
Proof.
  intros Hsetup Hlost late.
  assert (Hbound : held None (notifier_binds (trace_of argv c))
                  = notifier (finished c))
    by (rewrite (run_notifier_binds argv c Hsetup);
        apply notifier_held_at_exit).
  apply setup_succeeds_iff in Hsetup as (Hc & Hs & Hn).
  revert Hbound.
  destruct (run_has_shape argv c)
    as [Hc' | _ Hs' | s _ _ Hn' | s n _ Es En Hl | s n _ Es En Hl];
    try congruence.
  intros Hbound.
  destruct (loop_notifier c) as [Hheld Hnames]. fold late in Hnames.
  rewrite En in Hheld.
  destruct (notifier (finished c)) as [k |] eqn:Ek;
    [| symmetry in Hheld; now apply held_some in Hheld].
  assert (Hold : (n < the_notification c)%nat).
  { destruct (discovery_fresh c) as (_ & Hd & _).
    destruct (discovered_notifier c) as [Hh _]. rewrite En in Hh.
    symmetry in Hh. apply held_in, in_map_iff in Hh as (b & <- & Hb).
    apply (Hd b), in_or_app. now right. }
  exists n, s, k. split; [| split; [| split; [| split; [| split; [| split]]]]].
  - now read_run c.
  - now read_run c.
  - reflexivity.
  - exact Hbound.
  - apply held_is_last, Hbound.
  - intros Hlate. rewrite Hlate in Hnames. apply map_fst_nil in Hnames.
    rewrite Hnames in Hheld. cbn in Hheld. congruence.
  - intros Hlate.
    assert (Hne : notifier_binds (loop_trace c) <> [])
      by (intros E; rewrite E in Hnames; cbn in Hnames; congruence).
    destruct (held_last (Some n) _ Hne) as (b & Hb & Hlast).
    rewrite Hlast in Hheld. injection Hheld as ->.
    destruct (loop_fresh c) as (_ & Hfresh & _).
    specialize (Hfresh b (in_or_app _ _ _ (or_intror Hb))).
    unfold subscribed in Hfresh. cbn [next_proxy] in Hfresh.
    split; [lia |]. read_run c. intros [E | [E | []]]; lia.
Qed.

Lemma destroyed_notifier_is_last_bound_witness :
  setup_succeeds renewed = true
  /\ connection_lost (dispatches renewed) = true
  /\ subscriptions (trace_of [helper] renewed) = [(4%nat, 10000, 3%nat, 5%nat)]
  /\ destroyed (trace_of [helper] renewed) = [5%nat; 6%nat]
  /\ exists n s k,
       subscriptions (trace_of [helper] renewed)
       = [(n, timeout_of_args [helper], s, the_notification renewed)]
       /\ destroyed (trace_of [helper] renewed) = [the_notification renewed; k]
       /\ notifier (finished renewed) = Some k
       /\ held None (notifier_binds (trace_of [helper] renewed)) = Some k
       /\ (exists others name,
              notifier_binds (trace_of [helper] renewed)
              = others ++ [(name, k)])
       /\ k <> n /\ ~ In n (destroyed (trace_of [helper] renewed)).
Proof.
  repeat (split; [reflexivity |]).
  destruct (destroyed_notifier_is_last_bound [helper] renewed eq_refl eq_refl)
    as (n & s & k & Hsub & Hdes & Hptr & Hlast & Hend & _ & Hlate).
  exists n, s, k.
  split; [exact Hsub | split; [exact Hdes | split; [exact Hptr |
    split; [exact Hlast | split; [exact Hend |]]]]].
  apply Hlate. discriminate.
Defined.

(** ** [READY] and what is advertised *)

Lemma seat_adverts_in evs name :
  In name (seat_adverts evs)
  <-> exists version, In (global name "wl_seat" version) evs.
Proof.
  unfold seat_adverts. rewrite in_flat_map. split.
  - intros ([k i v | k] & Hin & Hname); [| destruct Hname].
    destruct (String.eqb_spec i "wl_seat") as [-> | _]; [| destruct Hname].
    destruct Hname as [<- | []]. now exists v.
  - intros (v & Hin). exists (global name "wl_seat" v). split; [exact Hin |].
    cbn. now left.
Qed.

Lemma notifier_adverts_in evs name :
  In name (notifier_adverts evs)
  <-> exists version, In (global name "ext_idle_notifier_v1" version) evs.
Proof.
  unfold notifier_adverts. rewrite in_flat_map. split.
  - intros ([k i v | k] & Hin & Hname); [| destruct Hname].
    destruct (String.eqb_spec i "ext_idle_notifier_v1") as [-> | _];
      [| destruct Hname].
    destruct Hname as [<- | []]. now exists v.
  - intros (v & Hin). exists (global name "ext_idle_notifier_v1" v).
    split; [exact Hin |]. cbn. now left.
Qed.

Lemma not_nil_in {X} (l : list X) : l <> [] <-> exists x, In x l.
Proof.
  destruct l as [| x l]; split;
    [congruence | intros [x []] | intros _; exists x; now left | discriminate].
Qed.

(** X12: [READY] is written exactly when the connection is made and the
    round trip brings a global named [wl_seat] and a global named
    [ext_idle_notifier_v1], in either order, under any name and
    version. *)
Theorem ready_iff_advertised (argv : list string) (c : compositor) :
  In (line "READY") (stdout (trace_of argv c))
  <-> connects c = true
      /\ (exists name version, In (global name "wl_seat" version) (discovery c))
      /\ (exists name version,
             In (global name "ext_idle_notifier_v1" version) (discovery c)).
Proof.
  assert (Hsetup : setup_succeeds c = true
                   <-> connects c = true
                       /\ (exists name version,
                              In (global name "wl_seat" version) (discovery c))
                       /\ (exists name version,
                              In (global name "ext_idle_notifier_v1" version)
                                (discovery c))).
  { unfold setup_succeeds. rewrite !andb_true_iff, !not_nil_iff, !not_nil_in.
    setoid_rewrite seat_adverts_in. setoid_rewrite notifier_adverts_in. tauto. }
  rewrite <- Hsetup, run_stdout.
  destruct (setup_succeeds c); split; try easy. intros _. now left.
Qed.

Lemma ready_iff_advertised_witness :
  In (line "READY") (stdout (trace_of [helper] noisy)).
Proof.
  apply (proj2 (ready_iff_advertised [helper] noisy)).
  split; [reflexivity | split].
  - exists 2, 9. cbn. auto.
  - exists 3, 2. cbn. auto 6.
Defined.
